(** * jokes: request building and response parsing of the JokeAPI client

    A shallow embedding of [joke.go] (package [jokes]) and of the parts of
    Go's standard library its results depend on ([fmt]'s [%d], [%s] and
    [%q], [net/url]'s escaping and [Values], [encoding/json]'s decoding
    into the package's structs), followed by the properties of the
    package's specification.

    Conventions.
    - A Go [string] is a [string] of bytes; a Go [int] is a [Z] (the
      package does no arithmetic on them beyond comparing with 0; the
      JSON decoder checks the 64-bit range where Go does).
    - A method with a pointer receiver ([Lang.Set], [Flags.Add], ...)
      takes the receiver's value and returns the new value next to the
      error; a [nil] error is [None].
    - [url.Values] is a finite map from strings to lists of strings. *)

From Stdlib Require Import ZArith String Ascii DecimalString DecimalZ DecimalPos.
From Stdlib Require Import List Bool Lia.
From stdpp Require Import base option gmap strings list sorting.

Local Open Scope string_scope.

(** ** Bytes and strings *)

Definition byte_in (c : ascii) (s : string) : bool :=
  existsb (Ascii.eqb c) (list_ascii_of_string s).

Definition is_empty_string (s : string) : bool :=
  match s with EmptyString => true | String _ _ => false end.

Definition is_alpha (c : ascii) : bool :=
  let n := N_of_ascii c in
  ((97 <=? n) && (n <=? 122) || (65 <=? n) && (n <=? 90))%N.

Definition is_digit (c : ascii) : bool :=
  let n := N_of_ascii c in ((48 <=? n) && (n <=? 57))%N.

Definition hexdigit (table : string) (n : N) : ascii :=
  match String.get (N.to_nat n) table with
  | Some c => c
  | None => "0"%char
  end.

(** The double quote, by its code. *)
Definition dquote : ascii := "034"%char.

Definition upperhex : string := "0123456789ABCDEF".
Definition lowerhex : string := "0123456789abcdef".

(** [fmt.Sprintf("%d", n)]: the decimal digits of [n], with a minus sign
    when it is negative. *)
Definition Sprintf_d (n : Z) : string := NilZero.string_of_int (Z.to_int n).

(** ** net/url: escaping, [Values.Encode] and [URL.String] *)

Inductive encoding := encodePath | encodeHost | encodeQueryComponent.

Definition encoding_eqb (a b : encoding) : bool :=
  match a, b with
  | encodePath, encodePath
  | encodeHost, encodeHost
  | encodeQueryComponent, encodeQueryComponent => true
  | _, _ => false
  end.

(** [url.shouldEscape], for the three modes the package reaches. *)
Definition shouldEscape (c : ascii) (mode : encoding) : bool :=
  if is_alpha c || is_digit c then false
  else if encoding_eqb mode encodeHost
          && (byte_in c "!$&'()*+,;=:[]<>" || Ascii.eqb c dquote) then false
  else if byte_in c "-_.~" then false
  else if byte_in c "$&+,/:;=?@" then
    match mode with
    | encodePath => Ascii.eqb c "?"
    | encodeQueryComponent => true
    | encodeHost => true
    end
  else true.

(** [url.escape]: every byte is kept, turned into [+] (a space of a query
    component) or into [%XX]. Go returns the argument itself when no byte
    changes, which is the same string. *)
Definition escape_byte (c : ascii) (mode : encoding) : string :=
  if Ascii.eqb c " " && encoding_eqb mode encodeQueryComponent then "+"
  else if shouldEscape c mode then
    String "%" (String (hexdigit upperhex (N.shiftr (N_of_ascii c) 4))
               (String (hexdigit upperhex (N.land (N_of_ascii c) 15)) ""))
  else String c "".

Fixpoint escape (s : string) (mode : encoding) : string :=
  match s with
  | EmptyString => ""
  | String c s' => escape_byte c mode +:+ escape s' mode
  end.

Definition QueryEscape (s : string) : string := escape s encodeQueryComponent.

Definition Values_Set (v : gmap string (list string)) (key value : string)
  : gmap string (list string) := <[key := [value]]> v.

(** [url.Values.Encode]: the keys in ascending byte order, each value as
    [key=value] with both sides query-escaped, joined by [&]. *)
Definition Encode_add (keyEscaped : string) (buf val : string) : string :=
  let buf := if is_empty_string buf then buf else buf +:+ "&" in
  buf +:+ keyEscaped +:+ "=" +:+ QueryEscape val.

Definition sorted_keys (v : gmap string (list string)) : list string :=
  merge_sort (λ a b, String.leb a b) (fst <$> map_to_list v).

Definition Values_Encode (v : gmap string (list string)) : string :=
  foldl (λ buf k, foldl (Encode_add (QueryEscape k)) buf (default [] (v !! k)))
        "" (sorted_keys v).

(** The fields of [url.URL] the package sets; the others ([Opaque], [User],
    [RawPath], [ForceQuery], [Fragment], ...) keep their zero value. *)
Record url_URL := {
  Scheme : string;
  Host : string;
  Path : string;
  RawQuery : string
}.

Definition url_EscapedPath (u : url_URL) : string :=
  if String.eqb (Path u) "*" then "*" else escape (Path u) encodePath.

(** Whether the first path segment holds a colon (then a URL with nothing
    before the path gets [./] in front). *)
Fixpoint first_segment_has_colon (path : string) : bool :=
  match path with
  | EmptyString => false
  | String c s => if Ascii.eqb c "/" then false
                  else if Ascii.eqb c ":" then true
                  else first_segment_has_colon s
  end.

Definition starts_with_slash (s : string) : bool :=
  match s with String c _ => Ascii.eqb c "/" | EmptyString => false end.

Definition url_URL_String (u : url_URL) : string :=
  let buf := "" in
  let buf := if is_empty_string (Scheme u) then buf else buf +:+ Scheme u +:+ ":" in
  let buf :=
    if negb (is_empty_string (Scheme u)) || negb (is_empty_string (Host u)) then
      let buf := if negb (is_empty_string (Host u)) || negb (is_empty_string (Path u))
                 then buf +:+ "//" else buf in
      if is_empty_string (Host u) then buf else buf +:+ escape (Host u) encodeHost
    else buf in
  let path := url_EscapedPath u in
  let buf := if negb (is_empty_string path) && negb (starts_with_slash path)
                && negb (is_empty_string (Host u))
             then buf +:+ "/" else buf in
  let buf := if is_empty_string buf && first_segment_has_colon path
             then buf +:+ "./" else buf in
  let buf := buf +:+ path in
  if is_empty_string (RawQuery u) then buf else buf +:+ "?" +:+ RawQuery u.

(** ** The package's vocabulary *)

Definition Cs : string := "cs".
Definition De : string := "de".
Definition En : string := "en".
Definition Es : string := "es".
Definition Fr : string := "fr".
Definition Pt : string := "pt".

Definition Nsfw : string := "nsfw".
Definition Religious : string := "religious".
Definition Political : string := "political".
Definition Racist : string := "racist".
Definition Sexist : string := "sexist".
Definition Explicit : string := "explicit".

Definition Single : string := "single".
Definition Twopart : string := "twopart".

Definition Any : string := "Any".
Definition Christmas : string := "Christmas".
Definition Dark : string := "Dark".
Definition Misc : string := "Misc".
Definition Programming : string := "Programming".
Definition Pun : string := "Pun".
Definition Spooky : string := "Spooky".

Definition KeyAmount : string := "amount".
Definition KeyBlacklist : string := "blacklistFlags".
Definition KeyContains : string := "contains".
Definition KeyIDRange : string := "idRange".
Definition KeyLang : string := "lang".
Definition KeySafe : string := "safe-mode".
Definition KeyType : string := "type".

(** The value [BaseURL] is initialised with. *)
Definition BaseURL : url_URL :=
  {| Scheme := "https"; Host := "v2.jokeapi.dev"; Path := ""; RawQuery := "" |}.

(** ** Requests *)

Record IDRange := { Lower : Z; Upper : Z }.

(** [Lang], [Flag], [Category] and [Type] are string types: a field can
    hold any string, whatever the setters accept. [ID] is a pointer, [nil]
    is [None]. *)
Record Request := {
  Amount : Z;
  Blacklist : list string;
  Category : list string;
  Contains : string;
  ID : option IDRange;
  Lang : string;
  Safe : bool;
  Type_ : string
}.

(** The loop of [Flags.String] and of [Categories.String]: [c] is the
    length of the whole slice, [i] the index of the head of [s], [b] the
    builder. *)
Fixpoint String_loop (c i : Z) (s : list string) (b : string) : string :=
  match s with
  | [] => b
  | f :: s' =>
      let b := b +:+ f in
      let b := if (i <? c - 1)%Z then b +:+ "," else b in
      String_loop c (i + 1)%Z s' b
  end.

Definition Flags_String (s : list string) : string :=
  String_loop (Z.of_nat (length s)) 0%Z s "".

Definition Categories_String (s : list string) : string :=
  String_loop (Z.of_nat (length s)) 0%Z s "".

Definition IDRange_String (r : IDRange) : string :=
  if (0 <? Upper r)%Z
  then Sprintf_d (Lower r) +:+ "-" +:+ Sprintf_d (Upper r)
  else Sprintf_d (Lower r).

Definition ID_ (id : Z) : IDRange := {| Lower := id; Upper := 0 |}.

Definition Request_Query (j : Request) : gmap string (list string) :=
  let v : gmap string (list string) := ∅ in
  let v := if (0 <? Amount j)%Z then Values_Set v KeyAmount (Sprintf_d (Amount j)) else v in
  let v := if (0 <? length (Blacklist j))%nat
           then Values_Set v KeyBlacklist (Flags_String (Blacklist j)) else v in
  let v := if negb (is_empty_string (Contains j))
           then Values_Set v KeyContains (Contains j) else v in
  let v := match ID j with
           | Some r => Values_Set v KeyIDRange (IDRange_String r)
           | None => v
           end in
  let v := if negb (is_empty_string (Lang j)) then Values_Set v KeyLang (Lang j) else v in
  let v := if Safe j then Values_Set v KeySafe "" else v in
  let v := if negb (is_empty_string (Type_ j)) then Values_Set v KeyType (Type_ j) else v in
  v.

Definition Request_URL (j : Request) : string :=
  let cat := Category j in
  let cat := if (length cat =? 0)%nat then [Any] else cat in
  let url := BaseURL in
  let url := {| Scheme := Scheme url; Host := Host url;
                Path := "joke/" +:+ Categories_String cat;
                RawQuery := RawQuery url |} in
  let url := {| Scheme := Scheme url; Host := Host url; Path := Path url;
                RawQuery := Values_Encode (Request_Query j) |} in
  url_URL_String url.

(** [NewRequest()] and the zero value [Request{}]: an empty slice and a
    [nil] slice are both the empty list. *)
Definition NewRequest : Request :=
  {| Amount := 0; Blacklist := []; Category := []; Contains := ""; ID := None;
     Lang := ""; Safe := false; Type_ := "" |}.

Definition Request_zero : Request :=
  {| Amount := 0; Blacklist := []; Category := []; Contains := ""; ID := None;
     Lang := ""; Safe := false; Type_ := "" |}.

(** ** strconv.Quote, which the verb [%q] applies to a string

    Runes are numbers, the bytes of a string are read as numbers below
    256. Whether a rune above U+00FF is printable is decided by the tables
    of package [strconv]; they are taken as the parameter [isPrintWide].
    (DEL is written [\x7f], as current Go releases do.) *)

Definition RuneError : N := 0xFFFD.

Definition bytes_of_string (s : string) : list N :=
  N_of_ascii <$> list_ascii_of_string s.

Definition string_of_bytes (l : list N) : string :=
  string_of_list_ascii (ascii_of_N <$> l).

(** [utf8.first] with [utf8.acceptRanges]: for a byte from 0x80 on that
    starts a sequence, the length of the sequence and the bounds of its
    second byte. *)
Definition utf8_first (s0 : N) : option (nat * N * N) :=
  (if s0 <? 0xC2 then None
   else if s0 <=? 0xDF then Some (2%nat, 0x80, 0xBF)
   else if s0 =? 0xE0 then Some (3%nat, 0xA0, 0xBF)
   else if s0 <=? 0xEC then Some (3%nat, 0x80, 0xBF)
   else if s0 =? 0xED then Some (3%nat, 0x80, 0x9F)
   else if s0 <=? 0xEF then Some (3%nat, 0x80, 0xBF)
   else if s0 =? 0xF0 then Some (4%nat, 0x90, 0xBF)
   else if s0 <=? 0xF3 then Some (4%nat, 0x80, 0xBF)
   else if s0 =? 0xF4 then Some (4%nat, 0x80, 0x8F)
   else None)%N.

Definition continuation (b : N) : bool := ((0x80 <=? b) && (b <=? 0xBF))%N.

(** [utf8.DecodeRuneInString]: the first rune of [s] and its width in
    bytes; [(RuneError, 1)] where the bytes are no UTF-8 sequence. *)
Definition DecodeRuneInString (s : list N) : N * nat :=
  match s with
  | [] => (RuneError, 0%nat)
  | s0 :: _ =>
      if (s0 <? 0x80)%N then (s0, 1%nat)
      else match utf8_first s0 with
      | None => (RuneError, 1%nat)
      | Some (sz, lo, hi) =>
          if (length s <? sz)%nat then (RuneError, 1%nat) else
          let s1 := nth 1 s 0%N in
          if ((s1 <? lo) || (hi <? s1))%N then (RuneError, 1%nat) else
          if (sz <=? 2)%nat
          then (N.lor (N.shiftl (N.land s0 0x1F) 6) (N.land s1 0x3F), 2%nat) else
          let s2 := nth 2 s 0%N in
          if negb (continuation s2) then (RuneError, 1%nat) else
          if (sz <=? 3)%nat
          then (N.lor (N.lor (N.shiftl (N.land s0 0x0F) 12)
                             (N.shiftl (N.land s1 0x3F) 6))
                      (N.land s2 0x3F), 3%nat) else
          let s3 := nth 3 s 0%N in
          if negb (continuation s3) then (RuneError, 1%nat) else
          (N.lor (N.lor (N.lor (N.shiftl (N.land s0 0x07) 18)
                               (N.shiftl (N.land s1 0x3F) 12))
                        (N.shiftl (N.land s2 0x3F) 6))
                 (N.land s3 0x3F), 4%nat)
      end
  end.

Definition ValidRune (r : N) : bool :=
  ((r <? 0xD800) || (0xDFFF <? r) && (r <=? 0x10FFFF))%N.

(** [utf8.AppendRune] on an empty buffer. *)
Definition AppendRune (r : N) : list N :=
  (if r <=? 0x7F then [r]
   else if r <=? 0x7FF
   then [N.lor 0xC0 (N.shiftr r 6); N.lor 0x80 (N.land r 0x3F)]
   else
     let r := if negb (ValidRune r) then RuneError else r in
     if r <=? 0xFFFF
     then [N.lor 0xE0 (N.shiftr r 12); N.lor 0x80 (N.land (N.shiftr r 6) 0x3F);
           N.lor 0x80 (N.land r 0x3F)]
     else [N.lor 0xF0 (N.shiftr r 18); N.lor 0x80 (N.land (N.shiftr r 12) 0x3F);
           N.lor 0x80 (N.land (N.shiftr r 6) 0x3F); N.lor 0x80 (N.land r 0x3F)])%N.

Definition hex_at (r : N) (shifts : list N) : string :=
  string_of_list_ascii ((λ s, hexdigit lowerhex (N.land (N.shiftr r s) 15)) <$> shifts).

Section Quote.
Variable isPrintWide : N → bool.

(** [strconv.IsPrint]. *)
Definition IsPrint (r : N) : bool :=
  (if r <=? 0xFF then
     if (0x20 <=? r) && (r <=? 0x7E) then true
     else if (0xA1 <=? r) && (r <=? 0xFF) then negb (r =? 0xAD)
     else false
   else isPrintWide r)%N.

(** [strconv.appendEscapedRune] with the double quote as the quote and
    neither [ASCIIonly] nor [graphicOnly]. *)
Definition appendEscapedRune (r : N) : string :=
  (if (r =? N_of_ascii dquote) || (r =? 0x5C) then String "\" (String (ascii_of_N r) "")
   else if IsPrint r then string_of_bytes (AppendRune r)
   else if r =? 7 then "\a"
   else if r =? 8 then "\b"
   else if r =? 12 then "\f"
   else if r =? 10 then "\n"
   else if r =? 13 then "\r"
   else if r =? 9 then "\t"
   else if r =? 11 then "\v"
   else if (r <? 0x20) || (r =? 0x7F) then "\x" +:+ hex_at (r mod 256) [4; 0]
   else if negb (ValidRune r) then "\u" +:+ hex_at RuneError [12; 8; 4; 0]
   else if r <? 0x10000 then "\u" +:+ hex_at r [12; 8; 4; 0]
   else "\U" +:+ hex_at r [28; 24; 20; 16; 12; 8; 4; 0])%N.

(** The loop of [strconv.appendQuotedWith]: [skip] counts the bytes of
    the rune read last that are still ahead. *)
Fixpoint quote_loop (s : list N) (skip : nat) : string :=
  match s with
  | [] => ""
  | c :: s' =>
      match skip with
      | S k => quote_loop s' k
      | O =>
          let '(r, width) := if (0x80 <=? c)%N then DecodeRuneInString s else (c, 1%nat) in
          (if (width =? 1)%nat && (r =? RuneError)%N
           then "\x" +:+ hex_at c [4%N; 0%N]
           else appendEscapedRune r) +:+ quote_loop s' (width - 1)
      end
  end.

Definition Quote (s : string) : string :=
  String dquote (quote_loop (bytes_of_string s) 0) +:+ String dquote "".

(** [fmt.Sprintf(format, arg)] for a format that is a literal text
    followed by [%q]. *)
Definition Sprintf_q (text arg : string) : string := text +:+ Quote arg.
End Quote.

(** ** Errors and decoded records *)

(** A JSON document as [encoding/json]'s scanner reads it: the bytes handed
    to [json.Unmarshal] are valid JSON, strings and keys are unquoted, the
    members of an object are in the order of the text and a key may occur
    more than once. A number is an integer literal or a literal with a
    fraction or an exponent (kept as its text). *)
Inductive number :=
| Integer (z : Z)
| Fractional (text : string).

#[local] Set Warnings "-register-all".
Inductive json :=
| JNull
| JBool (b : bool)
| JNumber (n : number)
| JString (s : string)
| JArray (vs : list json)
| JObject (kvs : list (string * json)).

(** A Go slice: its backing array ([cap] is the length of [array]) and its
    length. A [nil] slice has no array. *)
Record slice (A : Type) := mk_slice { array : list A; len : nat }.
Arguments mk_slice {A} array len.
Arguments array {A} s.
Arguments len {A} s.

Definition nil_slice {A} : slice A := mk_slice [] 0.
Definition elems {A} (s : slice A) : list A := take (len s) (array s).

Record Joke := mk_Joke {
  Joke_Category : string;
  Joke_Delivery : string;
  Joke_Flags : gmap string bool;
  Joke_Id : Z;
  Joke_Joke : string;
  Joke_Lang : string;
  Joke_Safe : bool;
  Joke_Setup : string;
  Joke_Type : string
}.

Record Jokes := mk_Jokes { Jokes_Jokes : slice Joke }.

Record ErrorResponse := mk_ErrorResponse {
  ErrorResponse_Cause : slice string;
  ErrorResponse_Code : Z;
  ErrorResponse_Info : string;
  ErrorResponse_Internal : bool;
  ErrorResponse_Message : string;
  ErrorResponse_Time : Z
}.

Definition zero_Joke : Joke := mk_Joke "" "" ∅ 0 "" "" false "" "".
Definition zero_Jokes : Jokes := mk_Jokes nil_slice.
Definition zero_ErrorResponse : ErrorResponse := mk_ErrorResponse nil_slice 0 "" false "" 0.

(** What [json.UnmarshalTypeError] records of the JSON value ... *)
Inductive jkind :=
| KObject | KArray | KString | KBool | KNumber
| KNumberLit (n : number).

(** ... and of the Go type it was to be stored in. *)
Inductive gotype :=
| T_bool | T_int | T_string | T_Lang | T_Type | T_Category
| T_Joke | T_Jokes | T_ErrorResponse | T_slice_Joke | T_slice_string
| T_map_Flag_bool | T_map_string_RawMessage.

(** The dynamic types an [error] of this package has: the value of
    [errors.New] and of [fmt.Errorf] with its message; the decoder's type
    error (its offset and field path are left out); an [ErrorResponse]. *)
Inductive error :=
| errorString (s : string)
| UnmarshalTypeError (Value : jkind) (Type_of : gotype)
| APIError (e : ErrorResponse).

Inductive result (A : Type) :=
| Ok (a : A)
| Err (e : error).
Arguments Ok {A} a.
Arguments Err {A} e.

(** Decoding stops at the first error: this is the error Go saves and
    returns once the document is read, and every caller in the package
    drops the target when an error comes back. *)
#[global] Instance result_bind : MBind result :=
  λ A B (k : A → result B) (r : result A),
    match r with Ok a => k a | Err e => Err e end.

Definition ErrorResponse_Error (e : ErrorResponse) : string :=
  ErrorResponse_Message e +:+ ": " +:+ ErrorResponse_Info e.

Definition Joke_String (j : Joke) : string :=
  if String.eqb (Joke_Type j) Twopart
  then Joke_Setup j +:+ String "010" (Joke_Delivery j)
  else Joke_Joke j.

(** ** The validated setters *)

Definition switch_case (x : string) (cases : list string) : bool :=
  existsb (String.eqb x) cases.

Section Setters.
Variable isPrintWide : N → bool.

Definition Errorf_q (text arg : string) : error :=
  errorString (Sprintf_q isPrintWide text arg).

Definition Lang_Set (s : string) (l : string) : string * option error :=
  if switch_case l [Cs; De; En; Es; Fr; Pt]
  then (l, None)
  else (s, Some (Errorf_q "invalid lang code: " l)).

Definition Flags_Add (s : list string) (f : string) : list string * option error :=
  if switch_case f [Nsfw; Religious; Political; Racist; Sexist; Explicit]
  then ((s ++ [f])%list, None)
  else (s, Some (Errorf_q "invalid flag: " f)).

Definition Type_Set (s : string) (t : string) : string * option error :=
  if switch_case t [Single; Twopart]
  then (t, None)
  else (s, Some (Errorf_q "invalid type: " t)).

Definition Categories_Add (s : list string) (c : string) : list string * option error :=
  if switch_case c [Any; Misc; Programming; Dark; Pun; Spooky; Christmas]
  then ((s ++ [c])%list, None)
  else (s, Some (Errorf_q "invalid category: " c)).
End Setters.

(** ** encoding/json: decoding into the package's types

    Each decoder takes the JSON value and the value the target holds, and
    returns what the target holds afterwards: [null] leaves a string, a
    number, a boolean or a struct as it is, and a member that occurs twice
    is decoded twice into the same field. *)

Definition in_int64 (z : Z) : bool := ((- 2 ^ 63 <=? z) && (z <? 2 ^ 63))%Z.

(** The kind a type error reports of a value. Every target takes a [null]
    without an error, so its kind is never reported. *)
Definition kind_of (v : json) : jkind :=
  match v with
  | JNull | JBool _ => KBool
  | JNumber _ => KNumber
  | JString _ => KString
  | JArray _ => KArray
  | JObject _ => KObject
  end.

Definition value_string (ty : gotype) (v : json) (old : string) : result string :=
  match v with
  | JNull => Ok old
  | JString s => Ok s
  | _ => Err (UnmarshalTypeError (kind_of v) ty)
  end.

Definition value_bool (ty : gotype) (v : json) (old : bool) : result bool :=
  match v with
  | JNull => Ok old
  | JBool b => Ok b
  | _ => Err (UnmarshalTypeError (kind_of v) ty)
  end.

Definition value_int (ty : gotype) (v : json) (old : Z) : result Z :=
  match v with
  | JNull => Ok old
  | JNumber (Integer z) =>
      if in_int64 z then Ok z else Err (UnmarshalTypeError (KNumberLit (Integer z)) ty)
  | JNumber n => Err (UnmarshalTypeError (KNumberLit n) ty)
  | _ => Err (UnmarshalTypeError (kind_of v) ty)
  end.

(** An object into a [map[Flag]bool]: every member is decoded into a fresh
    [bool] and stored under its key. *)
Fixpoint object_map_bool (kvs : list (string * json)) (m : gmap string bool)
  : result (gmap string bool) :=
  match kvs with
  | [] => Ok m
  | (k, v) :: kvs' =>
      b ← value_bool T_bool v false;
      object_map_bool kvs' (<[k := b]> m)
  end.

Definition value_map_bool (v : json) (old : gmap string bool) : result (gmap string bool) :=
  match v with
  | JNull => Ok ∅
  | JObject kvs => object_map_bool kvs old
  | _ => Err (UnmarshalTypeError (kind_of v) T_map_Flag_bool)
  end.

(** *** Arrays into slices *)

Section Slices.
(** When the array is full the decoder moves the slice to a larger one;
    how much larger depends on the Go release and on the element type:
    [spare ty c] is the number of elements a slice of type [ty] and of
    capacity [c] gains beyond the one needed. *)
Variable spare : gotype → nat → nat.

Context {A : Type} (zero : A) (value : json → A → result A) (ty : gotype).

Definition grow (v : slice A) : slice A :=
  let newcap := (length (array v) + 1 + spare ty (length (array v)))%nat in
  mk_slice (take (len v) (array v) ++ replicate (newcap - len v) zero)%list (len v).

(** The loop of [decodeState.array]: element [i] is decoded into what
    the backing array holds at [i]. *)
Fixpoint array_loop (vs : list json) (i : nat) (v : slice A) : result (nat * slice A) :=
  match vs with
  | [] => Ok (i, v)
  | x :: vs' =>
      let v := if (length (array v) <=? i)%nat then grow v else v in
      let v := if (len v <=? i)%nat then mk_slice (array v) (i + 1) else v in
      a ← value x (nth i (array v) zero);
      array_loop vs' (S i) (mk_slice (<[i := a]> (array v)) (len v))
  end.

Definition array_slice (vs : list json) (v : slice A) : result (slice A) :=
  '(i, v) ← array_loop vs 0 v;
  let v := if (i <? len v)%nat then mk_slice (array v) i else v in
  Ok (if (i =? 0)%nat then mk_slice [] 0 else v).

Definition value_slice (x : json) (old : slice A) : result (slice A) :=
  match x with
  | JNull => Ok nil_slice
  | JArray vs => array_slice vs old
  | _ => Err (UnmarshalTypeError (kind_of x) ty)
  end.
End Slices.

(** *** Objects into structs *)

Definition to_upper (c : ascii) : ascii :=
  let n := N_of_ascii c in
  if ((97 <=? n) && (n <=? 122))%N then ascii_of_N (n - 32) else c.

(** [json.foldName] as far as a comparison with an ASCII name needs it:
    ASCII letters go to upper case, and the two runes outside ASCII whose
    case orbit holds an ASCII letter, U+212A (Kelvin sign, bytes E2 84 AA)
    and U+017F (long s, bytes C5 BF), go to [K] and [S]. Every other rune
    outside ASCII folds to a rune outside ASCII and is left as it is. *)
Fixpoint foldName_bytes (l : list ascii) : list ascii :=
  match l with
  | [] => []
  | c :: l' =>
      match N_of_ascii c, l' with
      | 0xC5%N, c1 :: l1 =>
          if (N_of_ascii c1 =? 0xBF)%N then "S"%char :: foldName_bytes l1
          else c :: foldName_bytes l'
      | 0xE2%N, c1 :: c2 :: l2 =>
          if ((N_of_ascii c1 =? 0x84) && (N_of_ascii c2 =? 0xAA))%N
          then "K"%char :: foldName_bytes l2
          else c :: foldName_bytes l'
      | _, _ => to_upper c :: foldName_bytes l'
      end
  end.

Definition foldName (s : string) : string :=
  string_of_list_ascii (foldName_bytes (list_ascii_of_string s)).

Definition byExactName {F} (fields : list (string * F)) (key : string) : option F :=
  snd <$> find (λ nf, String.eqb (fst nf) key) fields.

Definition byFoldedName {F} (fields : list (string * F)) (folded : string) : option F :=
  snd <$> find (λ nf, String.eqb (foldName (fst nf)) folded) fields.

(** The field a key names: the one with exactly that name, or else the one
    whose name is the key up to case. *)
Definition find_field {F} (fields : list (string * F)) (key : string) : option F :=
  match byExactName fields key with
  | Some f => Some f
  | None => byFoldedName fields (foldName key)
  end.

(** The loop of [decodeState.object] on a struct: a member whose key names
    a field is decoded into it, any other member is skipped. *)
Fixpoint object_struct {F T} (fields : list (string * F))
    (set : F → json → T → result T) (kvs : list (string * json)) (t : T) : result T :=
  match kvs with
  | [] => Ok t
  | (k, v) :: kvs' =>
      match find_field fields k with
      | Some f => t' ← set f v t; object_struct fields set kvs' t'
      | None => object_struct fields set kvs' t
      end
  end.

Definition value_struct {F T} (ty : gotype) (fields : list (string * F))
    (set : F → json → T → result T) (v : json) (old : T) : result T :=
  match v with
  | JNull => Ok old
  | JObject kvs => object_struct fields set kvs old
  | _ => Err (UnmarshalTypeError (kind_of v) ty)
  end.

Inductive Joke_field :=
| F_category | F_delivery | F_flags | F_id | F_joke | F_lang | F_safe | F_setup | F_type.

Definition Joke_fields : list (string * Joke_field) :=
  [("category", F_category); ("delivery", F_delivery); ("flags", F_flags);
   ("id", F_id); ("joke", F_joke); ("lang", F_lang); ("safe", F_safe);
   ("setup", F_setup); ("type", F_type)].

Definition set_Joke_field (f : Joke_field) (v : json) (j : Joke) : result Joke :=
  let '(mk_Joke category delivery flags id joke lang safe setup type) := j in
  match f with
  | F_category => x ← value_string T_Category v category;
                  Ok (mk_Joke x delivery flags id joke lang safe setup type)
  | F_delivery => x ← value_string T_string v delivery;
                  Ok (mk_Joke category x flags id joke lang safe setup type)
  | F_flags => x ← value_map_bool v flags;
               Ok (mk_Joke category delivery x id joke lang safe setup type)
  | F_id => x ← value_int T_int v id;
            Ok (mk_Joke category delivery flags x joke lang safe setup type)
  | F_joke => x ← value_string T_string v joke;
              Ok (mk_Joke category delivery flags id x lang safe setup type)
  | F_lang => x ← value_string T_Lang v lang;
              Ok (mk_Joke category delivery flags id joke x safe setup type)
  | F_safe => x ← value_bool T_bool v safe;
              Ok (mk_Joke category delivery flags id joke lang x setup type)
  | F_setup => x ← value_string T_string v setup;
               Ok (mk_Joke category delivery flags id joke lang safe x type)
  | F_type => x ← value_string T_Type v type;
              Ok (mk_Joke category delivery flags id joke lang safe setup x)
  end.

Definition value_Joke (v : json) (old : Joke) : result Joke :=
  value_struct T_Joke Joke_fields set_Joke_field v old.

Inductive Jokes_field := F_jokes.

Definition Jokes_fields : list (string * Jokes_field) := [("jokes", F_jokes)].

Inductive ErrorResponse_field :=
| F_causedBy | F_code | F_additionalInfo | F_internalError | F_message | F_timestamp.

Definition ErrorResponse_fields : list (string * ErrorResponse_field) :=
  [("causedBy", F_causedBy); ("code", F_code); ("additionalInfo", F_additionalInfo);
   ("internalError", F_internalError); ("message", F_message);
   ("timestamp", F_timestamp)].

(** [json.Unmarshal] into a [map[string]json.RawMessage] that is [nil]:
    every member is kept undecoded under its key, a later member with the
    same key replaces an earlier one. *)
Definition Unmarshal_raw (jsn : json) : result (gmap string json) :=
  match jsn with
  | JNull => Ok ∅
  | JObject kvs => Ok (foldl (λ m kv, <[fst kv := snd kv]> m) ∅ kvs)
  | _ => Err (UnmarshalTypeError (kind_of jsn) T_map_string_RawMessage)
  end.

Definition Unmarshal_bool (jsn : json) (old : bool) : result bool :=
  value_bool T_bool jsn old.

Definition Unmarshal_Joke (jsn : json) (old : Joke) : result Joke :=
  value_Joke jsn old.

(** The text of the error for a response without the discriminator:
    [response has no "error" property], the key in double quotes. *)
Definition no_error_property : string :=
  "response has no " +:+ String dquote "error" +:+ String dquote " property".

Section Parse.
Variable spare : gotype → nat → nat.

Definition set_Jokes_field (f : Jokes_field) (v : json) (j : Jokes) : result Jokes :=
  match f with
  | F_jokes => x ← value_slice spare zero_Joke value_Joke T_slice_Joke v (Jokes_Jokes j);
               Ok (mk_Jokes x)
  end.

Definition Unmarshal_Jokes (jsn : json) (old : Jokes) : result Jokes :=
  value_struct T_Jokes Jokes_fields set_Jokes_field jsn old.

Definition set_ErrorResponse_field (f : ErrorResponse_field) (v : json)
    (e : ErrorResponse) : result ErrorResponse :=
  let '(mk_ErrorResponse cause code info internal message time) := e in
  match f with
  | F_causedBy =>
      x ← value_slice spare "" (value_string T_string) T_slice_string v cause;
      Ok (mk_ErrorResponse x code info internal message time)
  | F_code => x ← value_int T_int v code;
              Ok (mk_ErrorResponse cause x info internal message time)
  | F_additionalInfo => x ← value_string T_string v info;
                        Ok (mk_ErrorResponse cause code x internal message time)
  | F_internalError => x ← value_bool T_bool v internal;
                       Ok (mk_ErrorResponse cause code info x message time)
  | F_message => x ← value_string T_string v message;
                 Ok (mk_ErrorResponse cause code info internal x time)
  | F_timestamp => x ← value_int T_int v time;
                   Ok (mk_ErrorResponse cause code info internal message x)
  end.

Definition Unmarshal_ErrorResponse (jsn : json) (old : ErrorResponse)
  : result ErrorResponse :=
  value_struct T_ErrorResponse ErrorResponse_fields set_ErrorResponse_field jsn old.

(** [ParseResponse], on the document its argument holds: the jokes and the
    error it returns. (Bytes that are no JSON document make the first
    [json.Unmarshal] return a syntax error.) *)
Definition ParseResponse (jsn : json) : list Joke * option error :=
  match Unmarshal_raw jsn with
  | Err e => ([], Some e)
  | Ok raw =>
      match raw !! "error" with
      | None => ([], Some (errorString no_error_property))
      | Some err =>
          match Unmarshal_bool err false with
          | Err e => ([], Some e)
          | Ok isErr =>
              if isErr then
                match Unmarshal_ErrorResponse jsn zero_ErrorResponse with
                | Ok err => ([], Some (APIError err))
                | Err e => ([], Some e)
                end
              else
                match raw !! "amount" with
                | Some _ =>
                    match Unmarshal_Jokes jsn zero_Jokes with
                    | Ok jokes => (elems (Jokes_Jokes jokes), None)
                    | Err e => ([], Some e)
                    end
                | None =>
                    match Unmarshal_Joke jsn zero_Joke with
                    | Ok joke => ([joke], None)
                    | Err e => ([], Some e)
                    end
                end
          end
      end
  end.
End Parse.

(** ** What the specification says, where it is compared with the code *)

(** The rendering of an ID range in the specification's words: the lower
    bound alone when the upper bound is 0, [lower-upper] otherwise. *)
Definition IDRange_rendering_spec (r : IDRange) : string :=
  if (Upper r =? 0)%Z then Sprintf_d (Lower r)
  else Sprintf_d (Lower r) +:+ "-" +:+ Sprintf_d (Upper r).

(** The vocabularies of the enumerations. *)
Definition Languages : list string := [Cs; De; En; Es; Fr; Pt].
Definition BlacklistFlags : list string :=
  [Nsfw; Religious; Political; Racist; Sexist; Explicit].
Definition CategoryNames : list string :=
  [Any; Misc; Programming; Dark; Pun; Spooky; Christmas].
Definition JokeTypes : list string := [Single; Twopart].

(** The categories a request asks for: [Any] when it names none. *)
Definition requested_categories (j : Request) : list string :=
  match Category j with
  | [] => [Any]
  | cat => cat
  end.

(** The part of a URL from the question mark on. *)
Definition query_suffix (rawQuery : string) : string :=
  if is_empty_string rawQuery then "" else "?" +:+ rawQuery.

(** A string [%q] leaves as it is between the quotes: printable ASCII with
    neither a double quote nor a backslash. *)
Definition plain_byte (c : ascii) : bool :=
  let n := N_of_ascii c in
  ((0x20 <=? n) && (n <=? 0x7E) && negb (n =? 0x22) && negb (n =? 0x5C))%N.

Definition plain (s : string) : bool := forallb plain_byte (list_ascii_of_string s).

(** The capacities of [encoding/json] up to Go 1.19: half as much again,
    and 4 at least. *)
Definition spare_half (ty : gotype) (c : nat) : nat := Nat.max 4 (c + c / 2) - (c + 1).

(** A table of the wide runes with no printable one: every rune above
    U+00FF is escaped. *)
Definition no_print : N → bool := λ _, false.

(** A string the path escaping leaves as it is. *)
Definition path_safe (s : string) : bool :=
  forallb (λ c, negb (shouldEscape c encodePath)) (list_ascii_of_string s).

(** The value of the last member of an object with a given key. *)
Fixpoint last_member (key : string) (kvs : list (string * json)) : option json :=
  match kvs with
  | [] => None
  | (k, v) :: kvs' =>
      match last_member key kvs' with
      | Some v' => Some v'
      | None => if String.eqb k key then Some v else None
      end
  end.

(** The [error] member of the document decodes to the boolean [b]. *)
Definition error_decodes_to (jsn : json) (b : bool) : Prop :=
  ∃ raw err, Unmarshal_raw jsn = Ok raw ∧ raw !! "error" = Some err
             ∧ Unmarshal_bool err false = Ok b.

(** The document has a member with this very key. *)
Definition has_member (key : string) (jsn : json) : Prop :=
  ∃ raw, Unmarshal_raw jsn = Ok raw ∧ is_Some (raw !! key).

Definition is_type_error (e : error) : Prop :=
  ∃ value type, e = UnmarshalTypeError value type.

(** What a struct's string field holds once the members [kvs] are decoded
    into it: the string of the last member that names the field and holds
    a string, or else what it held before. *)
Fixpoint string_member {F} (fields : list (string * F)) (is_field : F → bool)
    (kvs : list (string * json)) (init : string) : string :=
  match kvs with
  | [] => init
  | (k, v) :: kvs' =>
      string_member fields is_field kvs'
        match find_field fields k, v with
        | Some f, JString s => if is_field f then s else init
        | _, _ => init
        end
  end.

Definition is_F_message (f : ErrorResponse_field) : bool :=
  match f with F_message => true | _ => false end.

Definition is_F_additionalInfo (f : ErrorResponse_field) : bool :=
  match f with F_additionalInfo => true | _ => false end.

(** ** The command: printing the jokes *)

(** The line feed [fmt.Println] ends a line with. *)
Definition LF : string := String "010" "".

(** The loop of [main] over the jokes [Get] returned: [n] is their number,
    [i] the index of the head of [jokes], [out] what standard output holds
    so far. [fmt.Println] of a joke writes its [String()]. *)
Fixpoint main_print_loop (n i : Z) (jokes : list Joke) (out : string) : string :=
  match jokes with
  | [] => out
  | j :: jokes' =>
      let out := out +:+ Joke_String j +:+ LF in
      let out := if (i <? n - 1)%Z then out +:+ "---" +:+ LF else out in
      main_print_loop n (i + 1)%Z jokes' out
  end.

Definition main_print (jokes : list Joke) : string :=
  main_print_loop (Z.of_nat (length jokes)) 0%Z jokes "".

(** ** Further notions the properties are stated with *)

(** The number of occurrences of a byte in a string. *)
Fixpoint count_byte (c : ascii) (s : string) : nat :=
  match s with
  | EmptyString => 0
  | String x s' => (if Ascii.eqb x c then 1 else 0) + count_byte c s'
  end.

(** The [key=value] pairs of the query of a request, in the order of the
    keys. *)
Definition query_pairs (j : Request) : list string :=
  ((if (0 <? Amount j)%Z
    then ["amount=" +:+ QueryEscape (Sprintf_d (Amount j))] else [])
   ++ (if (0 <? length (Blacklist j))%nat
       then ["blacklistFlags=" +:+ QueryEscape (Flags_String (Blacklist j))] else [])
   ++ (if negb (is_empty_string (Contains j))
       then ["contains=" +:+ QueryEscape (Contains j)] else [])
   ++ match ID j with
      | Some r => ["idRange=" +:+ QueryEscape (IDRange_String r)]
      | None => []
      end
   ++ (if negb (is_empty_string (Lang j)) then ["lang=" +:+ QueryEscape (Lang j)] else [])
   ++ (if Safe j then ["safe-mode="] else [])
   ++ (if negb (is_empty_string (Type_ j))
       then ["type=" +:+ QueryEscape (Type_ j)] else []))%list.

(** What [Values.Encode] adds to a buffer for one pair. *)
Definition Encode_step (buf pair : string) : string :=
  (if is_empty_string buf then buf else buf +:+ "&") +:+ pair.

(** The pairs of a map of values, key by key. *)
Definition Values_pairs (v : gmap string (list string)) (keys : list string)
  : list string :=
  flat_map (λ k, (λ val, QueryEscape k +:+ "=" +:+ QueryEscape val)
                   <$> default [] (v !! k)) keys.

(** A token that joins and splits without loss: not empty, no comma. *)
Definition token_ok (s : string) : bool :=
  negb (is_empty_string s) && (count_byte "," s =? 0)%nat.

(** What a struct's integer field holds once the members [kvs] are decoded
    into it (see [string_member]). *)
Fixpoint int_member {F} (fields : list (string * F)) (is_field : F → bool)
    (kvs : list (string * json)) (init : Z) : Z :=
  match kvs with
  | [] => init
  | (k, v) :: kvs' =>
      int_member fields is_field kvs'
        match find_field fields k, v with
        | Some f, JNumber (Integer z) => if is_field f then z else init
        | _, _ => init
        end
  end.

Fixpoint bool_member {F} (fields : list (string * F)) (is_field : F → bool)
    (kvs : list (string * json)) (init : bool) : bool :=
  match kvs with
  | [] => init
  | (k, v) :: kvs' =>
      bool_member fields is_field kvs'
        match find_field fields k, v with
        | Some f, JBool b => if is_field f then b else init
        | _, _ => init
        end
  end.

Definition is_F_category (f : Joke_field) : bool :=
  match f with F_category => true | _ => false end.
Definition is_F_delivery (f : Joke_field) : bool :=
  match f with F_delivery => true | _ => false end.
Definition is_F_id (f : Joke_field) : bool :=
  match f with F_id => true | _ => false end.
Definition is_F_joke (f : Joke_field) : bool :=
  match f with F_joke => true | _ => false end.
Definition is_F_lang (f : Joke_field) : bool :=
  match f with F_lang => true | _ => false end.
Definition is_F_safe (f : Joke_field) : bool :=
  match f with F_safe => true | _ => false end.
Definition is_F_setup (f : Joke_field) : bool :=
  match f with F_setup => true | _ => false end.
Definition is_F_type (f : Joke_field) : bool :=
  match f with F_type => true | _ => false end.

(** A key that names no field of the three structs a response is decoded
    into. *)
Definition names_no_field (k : string) : bool :=
  match find_field Joke_fields k, find_field Jokes_fields k,
        find_field ErrorResponse_fields k with
  | None, None, None => true
  | _, _, _ => false
  end.

(** The scalar fields of a joke, as the members of an object leave them. *)
Definition Joke_scalars_of (kvs : list (string * json)) (old j : Joke) : Prop :=
  Joke_Category j = string_member Joke_fields is_F_category kvs (Joke_Category old)
  ∧ Joke_Delivery j = string_member Joke_fields is_F_delivery kvs (Joke_Delivery old)
  ∧ Joke_Id j = int_member Joke_fields is_F_id kvs (Joke_Id old)
  ∧ Joke_Joke j = string_member Joke_fields is_F_joke kvs (Joke_Joke old)
  ∧ Joke_Lang j = string_member Joke_fields is_F_lang kvs (Joke_Lang old)
  ∧ Joke_Safe j = bool_member Joke_fields is_F_safe kvs (Joke_Safe old)
  ∧ Joke_Setup j = string_member Joke_fields is_F_setup kvs (Joke_Setup old)
  ∧ Joke_Type j = string_member Joke_fields is_F_type kvs (Joke_Type old).

(** A byte of a URL as the package builds it: unreserved, reserved, or the
    percent sign of an escape. *)
Definition url_byte (c : ascii) : bool :=
  is_alpha c || is_digit c || byte_in c "-_.~$&+,/:;=?@%".

Fixpoint all_bytes (p : ascii → bool) (s : string) : bool :=
  match s with
  | EmptyString => true
  | String c s' => p c && all_bytes p s'
  end.

(** The boolean a member of a [flags] object gives when it decodes. *)
Definition flag_value (v : json) : bool :=
  match v with
  | JBool b => b
  | _ => false
  end.

(** The pairs of the query of a request whose enumerated fields hold
    values of their vocabularies, with the escaping carried out. *)
Definition query_pairs_validated (j : Request) : list string :=
  ((if (0 <? Amount j)%Z then ["amount=" +:+ Sprintf_d (Amount j)] else [])
   ++ (if (0 <? length (Blacklist j))%nat
       then ["blacklistFlags=" +:+ String.concat "%2C" (Blacklist j)] else [])
   ++ (if negb (is_empty_string (Contains j))
       then ["contains=" +:+ QueryEscape (Contains j)] else [])
   ++ match ID j with
      | Some r => ["idRange=" +:+ IDRange_String r]
      | None => []
      end
   ++ (if negb (is_empty_string (Lang j)) then ["lang=" +:+ Lang j] else [])
   ++ (if Safe j then ["safe-mode="] else [])
   ++ (if negb (is_empty_string (Type_ j)) then ["type=" +:+ Type_ j] else []))%list.

(** * Properties *)

(** ** The package's tests *)

Example TestRequestEmptyQuery : Request_Query Request_zero = ∅.
Proof. reflexivity. Qed.

Example TestRequestQuery_contains :
  Request_Query {| Amount := 0; Blacklist := []; Category := [];
                   Contains := "some text"; ID := None; Lang := "";
                   Safe := false; Type_ := "" |}
  = {[ "contains" := ["some text"] ]}.
Proof. reflexivity. Qed.

Example TestRequestQuery_lang_type :
  Request_Query {| Amount := 0; Blacklist := []; Category := []; Contains := "";
                   ID := None; Lang := Pt; Safe := false; Type_ := "twopart" |}
  = {[ "lang" := ["pt"]; "type" := ["twopart"] ]}.
Proof. reflexivity. Qed.

Example TestRequestQuery_id_1 :
  Request_Query {| Amount := 0; Blacklist := []; Category := []; Contains := "";
                   ID := Some {| Lower := 1; Upper := 0 |}; Lang := "";
                   Safe := false; Type_ := "" |}
  = {[ "idRange" := ["1"] ]}.
Proof. reflexivity. Qed.

Example TestLangSetValid :
  Forall (λ l, Lang_Set no_print "" l = (l, None)) [Cs; De; En; Es; Fr; Pt].
Proof. repeat constructor. Qed.

Example TestFlagsString :
  Flags_String [Nsfw] = "nsfw"
  ∧ Flags_String [Nsfw; Religious; Political] = "nsfw,religious,political".
Proof. split; reflexivity. Qed.

Example TestFlagsAddValid :
  Forall (λ f, Flags_Add no_print [] f = ([f], None))
         [Nsfw; Religious; Political; Racist; Sexist; Explicit].
Proof. repeat constructor. Qed.

Example TestTypeSetValid :
  Forall (λ t, Type_Set no_print "" t = (t, None)) [Single; Twopart].
Proof. repeat constructor. Qed.

Example TestIDRangeString :
  IDRange_String {| Lower := 0; Upper := 0 |} = "0"
  ∧ IDRange_String {| Lower := 42; Upper := 0 |} = "42"
  ∧ IDRange_String {| Lower := 42; Upper := 1024 |} = "42-1024"
  ∧ IDRange_String (ID_ 64) = "64".
Proof. repeat split. Qed.

Example TestCategoriesString :
  Categories_String [Dark] = "Dark"
  ∧ Categories_String [Dark; Programming; Pun] = "Dark,Programming,Pun".
Proof. split; reflexivity. Qed.

Example TestCategoriesAddValid :
  Forall (λ c, Categories_Add no_print [] c = ([c], None))
         [Any; Christmas; Dark; Misc; Programming; Pun; Spooky].
Proof. repeat constructor. Qed.

Example URL_with_query :
  Request_URL {| Amount := 5; Blacklist := [Nsfw; Political]; Category := [];
                 Contains := "a b&c"; ID := Some {| Lower := 2; Upper := 32 |};
                 Lang := Pt; Safe := true; Type_ := Twopart |}
  = "https://v2.jokeapi.dev/joke/Any?amount=5&blacklistFlags=nsfw%2Cpolitical&contains=a+b%26c&idRange=2-32&lang=pt&safe-mode=&type=twopart".
Proof. vm_compute. reflexivity. Qed.

(** A URL escapes what the path of a request holds beyond the names of
    the vocabulary. *)
Example URL_escapes_path :
  Request_URL {| Amount := 0; Blacklist := []; Category := ["a b?"]; Contains := "";
                 ID := None; Lang := ""; Safe := false; Type_ := "" |}
  = "https://v2.jokeapi.dev/joke/a%20b%3F".
Proof. vm_compute. reflexivity. Qed.

(** [%q] escapes a double quote, a backslash and a line feed. *)
Example Quote_escapes :
  Quote no_print (String "010" (String dquote "a\b"))
  = String dquote ("\n\" +:+ String dquote "a\\b" +:+ String dquote "").
Proof. vm_compute. reflexivity. Qed.

(** ** Strings *)

Lemma append_cons (x : ascii) (a b : string) : String x a +:+ b = String x (a +:+ b).
Proof. reflexivity. Qed.

Lemma append_assoc (a b c : string) : (a +:+ b) +:+ c = a +:+ (b +:+ c).
Proof.
  induction a as [|x a IH]; [reflexivity|].
  by rewrite !append_cons, IH.
Qed.

Lemma append_nil_r (a : string) : a +:+ "" = a.
Proof.
  induction a as [|x a IH]; [reflexivity|].
  by rewrite append_cons, IH.
Qed.

(** [Sprintf_d] writes the number in base ten: reading the digits back
    gives the number. *)
Lemma Sprintf_d_decimal (n : Z) :
  Z.of_int <$> NilZero.int_of_string (Sprintf_d n) = Some n.
Proof.
  unfold Sprintf_d. rewrite NilZero.isi.
  - simpl. by rewrite DecimalZ.of_to.
  - destruct n; simpl; [discriminate | |discriminate].
    intros [= H]. by apply Unsigned.to_uint_nonnil in H.
  - destruct n; simpl; [discriminate | discriminate |].
    intros [= H]. by apply Unsigned.to_uint_nonnil in H.
Qed.

Lemma String_loop_cons (c i : Z) (f : string) (s : list string) (b : string) :
  String_loop c i (f :: s) b
  = String_loop c (i + 1) s (if (i <? c - 1)%Z then (b +:+ f) +:+ "," else b +:+ f).
Proof. reflexivity. Qed.

(** The loop of [String] joins the tokens with commas. *)
Lemma String_loop_concat (s : list string) :
  ∀ (c i : Z) (b : string),
    (i + Z.of_nat (length s) = c)%Z →
    String_loop c i s b = b +:+ String.concat "," s.
Proof.
  induction s as [|f s IH]; intros c i b Hc.
  - simpl. by rewrite append_nil_r.
  - destruct s as [|g s'].
    + rewrite String_loop_cons. simpl in *.
      replace (i <? c - 1)%Z with false by lia. reflexivity.
    + rewrite String_loop_cons. replace (i <? c - 1)%Z with true
        by (cbn [length] in Hc; lia).
      rewrite IH by (cbn [length] in *; lia).
      cbn [String.concat]. by rewrite !append_assoc.
Qed.

Lemma Flags_String_concat (s : list string) : Flags_String s = String.concat "," s.
Proof. unfold Flags_String. by rewrite String_loop_concat. Qed.

Lemma Categories_String_concat (s : list string) :
  Categories_String s = String.concat "," s.
Proof. unfold Categories_String. by rewrite String_loop_concat. Qed.

Lemma concat_snoc (sep : string) (s : list string) (t : string) :
  String.concat sep (s ++ [t])
  = match s with [] => t | _ => String.concat sep s +:+ sep +:+ t end.
Proof.
  induction s as [|f s IH]; [reflexivity|].
  destruct s as [|g s']; [reflexivity|].
  change (String.concat sep ((f :: g :: s') ++ [t]))
    with (f +:+ sep +:+ String.concat sep ((g :: s') ++ [t])).
  rewrite IH. cbn [String.concat]. by rewrite !append_assoc.
Qed.

(** ** Request.Query *)

Lemma lookup_Values_Set_if (c : bool) (v : gmap string (list string))
    (key val k : string) :
  (if c then Values_Set v key val else v) !! k
  = if c && bool_decide (key = k) then Some [val] else v !! k.
Proof.
  destruct c; [|reflexivity]. unfold Values_Set. rewrite lookup_insert.
  simpl. by case_bool_decide; case_decide.
Qed.

Lemma lookup_Values_Set_match {A} (o : option A) (v : gmap string (list string))
    (key : string) (val : A → string) (k : string) :
  match o with Some r => Values_Set v key (val r) | None => v end !! k
  = match o with
    | Some r => if bool_decide (key = k) then Some [val r] else v !! k
    | None => v !! k
    end.
Proof.
  destruct o; [|reflexivity]. unfold Values_Set. rewrite lookup_insert.
  by case_bool_decide; case_decide.
Qed.

(** The value [Query] holds under a key, field by field, the field set
    last first. *)
Lemma Request_Query_lookup (j : Request) (k : string) :
  Request_Query j !! k =
  let r1 := if (0 <? Amount j)%Z && bool_decide (KeyAmount = k)
            then Some [Sprintf_d (Amount j)] else None in
  let r2 := if (0 <? length (Blacklist j))%nat && bool_decide (KeyBlacklist = k)
            then Some [Flags_String (Blacklist j)] else r1 in
  let r3 := if negb (is_empty_string (Contains j)) && bool_decide (KeyContains = k)
            then Some [Contains j] else r2 in
  let r4 := match ID j with
            | Some r => if bool_decide (KeyIDRange = k)
                        then Some [IDRange_String r] else r3
            | None => r3
            end in
  let r5 := if negb (is_empty_string (Lang j)) && bool_decide (KeyLang = k)
            then Some [Lang j] else r4 in
  let r6 := if Safe j && bool_decide (KeySafe = k) then Some [""] else r5 in
  if negb (is_empty_string (Type_ j)) && bool_decide (KeyType = k)
  then Some [Type_ j] else r6.
Proof.
  unfold Request_Query. cbv zeta.
  rewrite !lookup_Values_Set_if, lookup_Values_Set_match, !lookup_Values_Set_if.
  by rewrite lookup_empty.
Qed.

(** Decides the comparisons of the key constants with one another. *)
Ltac decide_keys :=
  unfold KeyAmount, KeyBlacklist, KeyContains, KeyIDRange, KeyLang, KeySafe, KeyType;
  repeat match goal with
         | |- context [bool_decide (?a = ?b)] =>
             first [ rewrite (bool_decide_eq_true_2 (a = b)) by reflexivity
                   | rewrite (bool_decide_eq_false_2 (a = b)) by discriminate ]
         end;
  rewrite ?andb_false_r, ?andb_true_r.

Lemma length_pos_nonempty {A} (l : list A) : (0 <? length l)%nat = true ↔ l ≠ [].
Proof. destruct l; simpl; split; (congruence || done). Qed.

Lemma negb_is_empty_string (s : string) : negb (is_empty_string s) = true ↔ s ≠ "".
Proof. destruct s; simpl; split; (congruence || done). Qed.

(** C3. For every request, [Query()] holds a key exactly for each field
    that is set: [amount] iff [Amount > 0], [blacklistFlags] iff
    [Blacklist] is not empty, [contains] iff [Contains] is not empty,
    [idRange] iff [ID] is not nil, [lang] iff [Lang] is not empty,
    [safe-mode] iff [Safe] is true, [type] iff [Type] is not empty; a
    request with no field set yields the empty mapping. *)
Theorem Query_keys_exactly_set_fields (j : Request) :
  (∀ k : string,
      is_Some (Request_Query j !! k) ↔
        (k = "amount" ∧ (0 < Amount j)%Z)
        ∨ (k = "blacklistFlags" ∧ Blacklist j ≠ [])
        ∨ (k = "contains" ∧ Contains j ≠ "")
        ∨ (k = "idRange" ∧ ID j ≠ None)
        ∨ (k = "lang" ∧ Lang j ≠ "")
        ∨ (k = "safe-mode" ∧ Safe j = true)
        ∨ (k = "type" ∧ Type_ j ≠ ""))
  ∧ ((Amount j ≤ 0)%Z ∧ Blacklist j = [] ∧ Contains j = "" ∧ ID j = None
     ∧ Lang j = "" ∧ Safe j = false ∧ Type_ j = "" →
     Request_Query j = ∅).
Proof.
  assert (Hkeys : ∀ k : string,
      is_Some (Request_Query j !! k) ↔
        (k = "amount" ∧ (0 < Amount j)%Z)
        ∨ (k = "blacklistFlags" ∧ Blacklist j ≠ [])
        ∨ (k = "contains" ∧ Contains j ≠ "")
        ∨ (k = "idRange" ∧ ID j ≠ None)
        ∨ (k = "lang" ∧ Lang j ≠ "")
        ∨ (k = "safe-mode" ∧ Safe j = true)
        ∨ (k = "type" ∧ Type_ j ≠ "")).
  { intros k. rewrite Request_Query_lookup. cbv zeta.
    pose proof (negb_is_empty_string (Type_ j)) as HT.
    pose proof (negb_is_empty_string (Lang j)) as HL.
    pose proof (negb_is_empty_string (Contains j)) as HC.
    pose proof (length_pos_nonempty (Blacklist j)) as HB.
    pose proof (Z.ltb_lt 0 (Amount j)) as HA.
    unfold KeyAmount, KeyBlacklist, KeyContains, KeyIDRange, KeyLang, KeySafe, KeyType.
    split.
    - intros Hs.
      destruct (negb (is_empty_string (Type_ j)) && bool_decide ("type" = k)) eqn:E7.
      { apply andb_true_iff in E7 as [?%HT ?%bool_decide_eq_true]. do 6 right. done. }
      destruct (Safe j && bool_decide ("safe-mode" = k)) eqn:E6.
      { apply andb_true_iff in E6 as [? ?%bool_decide_eq_true]. do 5 right. left. done. }
      destruct (negb (is_empty_string (Lang j)) && bool_decide ("lang" = k)) eqn:E5.
      { apply andb_true_iff in E5 as [?%HL ?%bool_decide_eq_true]. do 4 right. left. done. }
      assert (Hrest : (ID j ≠ None ∧ "idRange" = k) ∨ is_Some
        (if negb (is_empty_string (Contains j)) && bool_decide ("contains" = k)
         then Some [Contains j]
         else if (0 <? length (Blacklist j))%nat && bool_decide ("blacklistFlags" = k)
              then Some [Flags_String (Blacklist j)]
              else if (0 <? Amount j)%Z && bool_decide ("amount" = k)
                   then Some [Sprintf_d (Amount j)] else None)).
      { destruct (ID j) as [r|]; [|by right].
        case_bool_decide; [by left | by right]. }
      clear Hs. destruct Hrest as [[? ?]|Hs]; [do 3 right; left; done|].
      destruct (negb (is_empty_string (Contains j)) && bool_decide ("contains" = k)) eqn:E3.
      { apply andb_true_iff in E3 as [?%HC ?%bool_decide_eq_true]. do 2 right. left. done. }
      destruct ((0 <? length (Blacklist j))%nat && bool_decide ("blacklistFlags" = k)) eqn:E2.
      { apply andb_true_iff in E2 as [?%HB ?%bool_decide_eq_true]. right. left. done. }
      destruct ((0 <? Amount j)%Z && bool_decide ("amount" = k)) eqn:E1.
      { apply andb_true_iff in E1 as [?%HA ?%bool_decide_eq_true]. left. done. }
      by destruct Hs.
    - intros [[-> H]|[[-> H]|[[-> H]|[[-> H]|[[-> H]|[[-> H]|[-> H]]]]]]];
        decide_keys.
      + apply HA in H. rewrite H. by destruct (ID j).
      + apply HB in H. rewrite H. by destruct (ID j).
      + apply HC in H. rewrite H. by destruct (ID j).
      + by destruct (ID j).
      + apply HL in H. by rewrite H.
      + by rewrite H.
      + apply HT in H. by rewrite H. }
  split; [exact Hkeys|].
  intros (HA & HB & HC & HI & HL & HS & HT).
  apply map_empty. intros k. apply eq_None_not_Some. rewrite Hkeys.
  rewrite HB, HC, HI, HL, HS, HT.
  intros [[_ ?]|[[_ ?]|[[_ ?]|[[_ ?]|[[_ ?]|[[_ ?]|[_ ?]]]]]]]; (done || lia).
Qed.

Example Query_of_amount_5 :
  Request_Query {| Amount := 5; Blacklist := []; Category := []; Contains := "";
                   ID := None; Lang := ""; Safe := false; Type_ := "" |}
  = {[ "amount" := ["5"] ]}.
Proof. reflexivity. Qed.

Example Query_of_safe :
  Request_Query {| Amount := 0; Blacklist := []; Category := []; Contains := "";
                   ID := None; Lang := ""; Safe := true; Type_ := "" |}
  = {[ "safe-mode" := [""] ]}.
Proof. reflexivity. Qed.

Example Query_of_blacklist :
  Request_Query {| Amount := 0; Blacklist := [Nsfw; Political; Explicit];
                   Category := []; Contains := ""; ID := None; Lang := "";
                   Safe := false; Type_ := "" |}
  = {[ "blacklistFlags" := ["nsfw,political,explicit"] ]}.
Proof. reflexivity. Qed.

Example Query_of_id_range :
  Request_Query {| Amount := 0; Blacklist := []; Category := []; Contains := "";
                   ID := Some {| Lower := 2; Upper := 32 |}; Lang := "";
                   Safe := false; Type_ := "" |}
  = {[ "idRange" := ["2-32"] ]}.
Proof. reflexivity. Qed.

(** C7. [Query()] renders [Amount] as its decimal string ([Amount = 5]
    gives [5]), [Safe = true] as the empty string under [safe-mode], and a
    blacklist that is not empty as its tokens joined by commas in
    insertion order, with no separator after the last token; a category
    list is serialized the same way. *)
Theorem Query_renders_values (j : Request) :
  ((0 < Amount j)%Z →
     Request_Query j !! "amount" = Some [Sprintf_d (Amount j)]
     ∧ Z.of_int <$> NilZero.int_of_string (Sprintf_d (Amount j)) = Some (Amount j))
  ∧ (Amount j = 5%Z → Request_Query j !! "amount" = Some ["5"])
  ∧ (Safe j = true → Request_Query j !! "safe-mode" = Some [""])
  ∧ (Blacklist j ≠ [] →
     Request_Query j !! "blacklistFlags" = Some [String.concat "," (Blacklist j)])
  ∧ (∀ s : list string,
       Flags_String s = String.concat "," s
       ∧ Categories_String s = String.concat "," s)
  ∧ (∀ (s : list string) (t : string),
       Flags_String (s ++ [t])
       = match s with [] => t | _ => Flags_String s +:+ "," +:+ t end
       ∧ Categories_String (s ++ [t])
         = match s with [] => t | _ => Categories_String s +:+ "," +:+ t end).
Proof.
  assert (HA : (0 < Amount j)%Z →
               Request_Query j !! "amount" = Some [Sprintf_d (Amount j)]).
  { intros H%Z.ltb_lt. rewrite Request_Query_lookup. cbv zeta. decide_keys.
    rewrite H. by destruct (ID j). }
  repeat split.
  - by apply HA.
  - apply Sprintf_d_decimal.
  - intros H5. rewrite HA by lia. by rewrite H5.
  - intros H. rewrite Request_Query_lookup. cbv zeta. decide_keys. by rewrite H.
  - intros H%length_pos_nonempty. rewrite Request_Query_lookup. cbv zeta. decide_keys.
    rewrite H, Flags_String_concat. by destruct (ID j).
  - apply Flags_String_concat.
  - apply Categories_String_concat.
  - rewrite !Flags_String_concat, concat_snoc. by destruct s.
  - rewrite !Categories_String_concat, concat_snoc. by destruct s.
Qed.

(** The theorem at a request with all three fields set. *)
Lemma Query_renders_values_witness :
  let j := {| Amount := 5; Blacklist := [Nsfw; Political; Explicit]; Category := [];
              Contains := ""; ID := None; Lang := ""; Safe := true; Type_ := "" |} in
  Request_Query j !! "amount" = Some ["5"]
  ∧ Request_Query j !! "safe-mode" = Some [""]
  ∧ Request_Query j !! "blacklistFlags" = Some ["nsfw,political,explicit"].
Proof.
  intros j.
  destruct (Query_renders_values j) as (_ & H5 & HS & HB & _).
  split; [apply H5; reflexivity|].
  split; [apply HS; reflexivity|].
  apply HB. discriminate.
Defined.

(** ** IDRange.String *)

(** The code tests the sign of the upper bound: the lower bound alone when
    the upper bound is not positive, both bounds when it is. *)
Lemma IDRange_String_by_sign (r : IDRange) :
  IDRange_String r
  = (if (Upper r <=? 0)%Z then Sprintf_d (Lower r)
     else Sprintf_d (Lower r) +:+ "-" +:+ Sprintf_d (Upper r)).
Proof.
  unfold IDRange_String.
  destruct (Z.ltb_spec 0 (Upper r)), (Z.leb_spec (Upper r) 0); (reflexivity || lia).
Qed.

(** C8. For every ID range of the data model (an upper bound that is not
    negative, 0 standing for no upper bound), the string of the range is
    the rendering of the specification: the decimal lower bound alone when
    the upper bound is 0, and [lower-upper] otherwise. [IDRange{1,0}]
    renders as [1] and [IDRange{2,32}] as [2-32]. *)
Theorem IDRange_String_rendering (r : IDRange) :
  (0 ≤ Upper r)%Z →
  IDRange_String r = IDRange_rendering_spec r
  ∧ (Upper r = 0%Z → IDRange_String r = Sprintf_d (Lower r))
  ∧ (Upper r ≠ 0%Z →
     IDRange_String r = Sprintf_d (Lower r) +:+ "-" +:+ Sprintf_d (Upper r))
  ∧ IDRange_String {| Lower := 1; Upper := 0 |} = "1"
  ∧ IDRange_String {| Lower := 2; Upper := 32 |} = "2-32".
Proof.
  intros H. rewrite IDRange_String_by_sign. unfold IDRange_rendering_spec.
  repeat split.
  - destruct (Z.leb_spec (Upper r) 0), (Z.eqb_spec (Upper r) 0);
      (reflexivity || lia).
  - intros E. destruct (Z.leb_spec (Upper r) 0); [reflexivity | lia].
  - intros E. destruct (Z.leb_spec (Upper r) 0); [lia | reflexivity].
Qed.

Lemma IDRange_String_rendering_witness :
  let r := {| Lower := 42; Upper := 1024 |} in
  IDRange_String r = IDRange_rendering_spec r
  ∧ (Upper r = 0%Z → IDRange_String r = Sprintf_d (Lower r))
  ∧ (Upper r ≠ 0%Z →
     IDRange_String r = Sprintf_d (Lower r) +:+ "-" +:+ Sprintf_d (Upper r))
  ∧ IDRange_String {| Lower := 1; Upper := 0 |} = "1"
  ∧ IDRange_String {| Lower := 2; Upper := 32 |} = "2-32".
Proof.
  apply (IDRange_String_rendering {| Lower := 42; Upper := 1024 |}).
  simpl. lia.
Defined.

(** ** Request.URL *)

Lemma escape_cons (c : ascii) (s : string) (mode : encoding) :
  escape (String c s) mode = escape_byte c mode +:+ escape s mode.
Proof. reflexivity. Qed.

Lemma escape_app (a b : string) (mode : encoding) :
  escape (a +:+ b) mode = escape a mode +:+ escape b mode.
Proof.
  induction a as [|c a IH]; [reflexivity|].
  by rewrite append_cons, !escape_cons, IH, append_assoc.
Qed.

Lemma escape_path_safe (s : string) :
  path_safe s = true → escape s encodePath = s.
Proof.
  unfold path_safe. induction s as [|c s IH]; [reflexivity|].
  cbn [list_ascii_of_string forallb]. intros [Hc Hs]%andb_true_iff.
  rewrite escape_cons, IH by done. unfold escape_byte.
  apply negb_true_iff in Hc. rewrite Hc.
  by rewrite andb_false_r.
Qed.

Lemma path_safe_app (a b : string) :
  path_safe (a +:+ b) = path_safe a && path_safe b.
Proof.
  unfold path_safe. induction a as [|c a IH]; [reflexivity|].
  rewrite append_cons. cbn [list_ascii_of_string forallb].
  by rewrite IH, andb_assoc.
Qed.

Lemma path_safe_concat (l : list string) :
  Forall (λ s, path_safe s = true) l → path_safe (String.concat "," l) = true.
Proof.
  induction 1 as [|s l Hs Hl IH]; [reflexivity|].
  destruct l as [|t l]; [exact Hs|].
  change (String.concat "," (s :: t :: l))
    with (s +:+ "," +:+ String.concat "," (t :: l)).
  rewrite !path_safe_app, Hs, IH. reflexivity.
Qed.

Lemma CategoryNames_path_safe (c : string) : c ∈ CategoryNames → path_safe c = true.
Proof.
  unfold CategoryNames. rewrite !elem_of_cons, elem_of_nil.
  intros [->|[->|[->|[->|[->|[->|[->|[]]]]]]]]; reflexivity.
Qed.

Lemma requested_categories_eq (j : Request) :
  (if (length (Category j) =? 0)%nat then [Any] else Category j)
  = requested_categories j.
Proof. unfold requested_categories. by destruct (Category j). Qed.

(** The URL of a request, written out. *)
Lemma Request_URL_unfold (j : Request) :
  Request_URL j
  = "https://v2.jokeapi.dev/"
    +:+ escape ("joke/" +:+ String.concat "," (requested_categories j)) encodePath
    +:+ query_suffix (Values_Encode (Request_Query j)).
Proof.
  unfold Request_URL. cbv zeta. rewrite requested_categories_eq.
  rewrite Categories_String_concat.
  generalize (String.concat "," (requested_categories j)) as cats.
  generalize (Values_Encode (Request_Query j)) as q.
  intros q cats. unfold url_URL_String, url_EscapedPath, query_suffix.
  cbn [Scheme Host Path RawQuery BaseURL].
  change ("joke/" +:+ cats) with (String "j" ("oke/" +:+ cats)).
  rewrite escape_cons.
  change (escape_byte "j" encodePath) with "j".
  change ("j" +:+ escape ("oke/" +:+ cats) encodePath)
    with (String "j" (escape ("oke/" +:+ cats) encodePath)).
  change (escape "v2.jokeapi.dev" encodeHost) with "v2.jokeapi.dev".
  change ((String "j" ("oke/" +:+ cats) =? "*")%string) with false.
  simpl. destruct (is_empty_string q).
  - rewrite append_nil_r. reflexivity.
  - rewrite !append_assoc. reflexivity.
Qed.

(** C6. For every request, [URL()] is the fixed base
    [https://v2.jokeapi.dev] followed by the path
    [joke/<comma-joined category list>] and the encoded query string, an
    empty category list being replaced by the single category [Any]: it
    is the string of the URL with that base, that path and that query. A
    URL is written with its path escaped and with [?] before a query that
    is not empty; category names of the vocabulary need no escaping.
    [Category{Dark,Pun}] with all other fields unset yields
    [https://v2.jokeapi.dev/joke/Dark,Pun]. *)
Theorem URL_is_base_path_query (j : Request) :
  Request_URL j
  = url_URL_String
      {| Scheme := "https"; Host := "v2.jokeapi.dev";
         Path := "joke/" +:+ String.concat "," (requested_categories j);
         RawQuery := Values_Encode (Request_Query j) |}
  ∧ Request_URL j
    = "https://v2.jokeapi.dev/"
      +:+ escape ("joke/" +:+ String.concat "," (requested_categories j)) encodePath
      +:+ query_suffix (Values_Encode (Request_Query j))
  ∧ (Forall (λ c, c ∈ CategoryNames) (Category j) →
     Request_URL j
     = "https://v2.jokeapi.dev/joke/"
       +:+ String.concat "," (requested_categories j)
       +:+ query_suffix (Values_Encode (Request_Query j)))
  ∧ (Category j = [] → requested_categories j = ["Any"])
  ∧ (Category j ≠ [] → requested_categories j = Category j)
  ∧ Request_URL {| Amount := 0; Blacklist := []; Category := [Dark; Pun];
                   Contains := ""; ID := None; Lang := ""; Safe := false;
                   Type_ := "" |}
    = "https://v2.jokeapi.dev/joke/Dark,Pun".
Proof.
  split; [|split; [|split; [|split; [|split]]]].
  - unfold Request_URL. cbv zeta.
    by rewrite requested_categories_eq, Categories_String_concat.
  - apply Request_URL_unfold.
  - intros Hcat. rewrite Request_URL_unfold, escape_path_safe.
    + by rewrite <- append_assoc.
    + rewrite path_safe_app. apply andb_true_iff. split; [reflexivity|].
      apply path_safe_concat. unfold requested_categories.
      destruct (Category j) as [|c l] eqn:E.
      * by repeat constructor.
      * eapply Forall_impl; [exact Hcat|]. apply CategoryNames_path_safe.
  - unfold requested_categories. by intros ->.
  - unfold requested_categories. by destruct (Category j).
  - vm_compute. reflexivity.
Qed.

(** The theorem at a request with two categories of the vocabulary and a
    query. *)
Lemma URL_is_base_path_query_witness :
  Request_URL {| Amount := 2; Blacklist := []; Category := [Programming; Misc];
                 Contains := ""; ID := None; Lang := ""; Safe := true;
                 Type_ := "" |}
  = "https://v2.jokeapi.dev/joke/Programming,Misc?amount=2&safe-mode=".
Proof.
  pose proof (URL_is_base_path_query
    {| Amount := 2; Blacklist := []; Category := [Programming; Misc];
       Contains := ""; ID := None; Lang := ""; Safe := true; Type_ := "" |})
    as (_ & _ & H & _).
  rewrite H.
  - vm_compute. reflexivity.
  - repeat constructor.
Defined.

(** ** The validated setters *)

Lemma switch_case_elem_of (x : string) (cases : list string) :
  switch_case x cases = true ↔ x ∈ cases.
Proof.
  unfold switch_case. rewrite existsb_exists. split.
  - intros (y & Hy & ->%String.eqb_eq). by apply list_elem_of_In.
  - intros Hx. exists x. split; [by apply list_elem_of_In | apply String.eqb_refl].
Qed.

Lemma switch_case_not_elem_of (x : string) (cases : list string) :
  switch_case x cases = false ↔ x ∉ cases.
Proof.
  rewrite <- switch_case_elem_of. by destruct (switch_case x cases).
Qed.

Section QuoteFacts.
Variable isPrintWide : N → bool.

Lemma appendEscapedRune_plain (c : ascii) :
  plain_byte c = true →
  appendEscapedRune isPrintWide (N_of_ascii c) = String c "".
Proof.
  unfold plain_byte, appendEscapedRune, IsPrint.
  change (N_of_ascii dquote) with 34%N.
  pose proof (ascii_N_embedding c) as Hc.
  revert Hc. generalize (N_of_ascii c) as n. intros n Hc H.
  apply andb_true_iff in H as [H H4]. apply andb_true_iff in H as [H H3].
  apply andb_true_iff in H as [H1 H2].
  apply negb_true_iff in H3, H4.
  rewrite H3, H4. cbn [orb].
  replace (n <=? 255)%N with true by (apply N.leb_le in H2; symmetry; apply N.leb_le; lia).
  rewrite H1, H2. cbn [andb].
  unfold AppendRune.
  replace (n <=? 127)%N with true by (apply N.leb_le in H2; symmetry; apply N.leb_le; lia).
  unfold string_of_bytes. cbn [fmap list_fmap string_of_list_ascii].
  by rewrite Hc.
Qed.

Lemma quote_loop_plain (s : string) :
  plain s = true → quote_loop isPrintWide (bytes_of_string s) 0 = s.
Proof.
  unfold plain, bytes_of_string. induction s as [|c s IH]; [reflexivity|].
  cbn [list_ascii_of_string forallb fmap list_fmap quote_loop].
  intros [Hc Hs]%andb_true_iff.
  assert (Hlt : (N_of_ascii c <= 126)%N).
  { unfold plain_byte in Hc. cbv zeta in Hc.
    apply andb_true_iff in Hc as [Hc _]. apply andb_true_iff in Hc as [Hc _].
    apply andb_true_iff in Hc as [_ Hc]. by apply N.leb_le in Hc. }
  replace (128 <=? N_of_ascii c)%N with false by (symmetry; apply N.leb_gt; lia).
  replace (N_of_ascii c =? RuneError)%N with false
    by (symmetry; apply N.eqb_neq; unfold RuneError; lia).
  cbn [Nat.eqb andb Nat.sub].
  rewrite appendEscapedRune_plain by done.
  change (list_fmap ascii N N_of_ascii (list_ascii_of_string s))
    with (N_of_ascii <$> list_ascii_of_string s).
  by rewrite IH.
Qed.

(** On a plain string [%q] writes the string between double quotes. *)
Lemma Quote_plain (s : string) :
  plain s = true → Quote isPrintWide s = String dquote s +:+ String dquote "".
Proof.
  intros H. unfold Quote. by rewrite quote_loop_plain.
Qed.
End QuoteFacts.

Example Lang_Set_invalid :
  Lang_Set no_print "" "invalid"
  = ("", Some (errorString ("invalid lang code: " +:+ String dquote "invalid"
                            +:+ String dquote ""))).
Proof. reflexivity. Qed.

Example Flags_Add_valid : Flags_Add no_print [] "nsfw" = ([Nsfw], None).
Proof. reflexivity. Qed.

Lemma Flags_Add_valid_token (isPrintWide : N → bool) (s : list string) (t : string) :
  t ∈ BlacklistFlags → Flags_Add isPrintWide s t = ((s ++ [t])%list, None).
Proof.
  intros H%switch_case_elem_of. unfold Flags_Add, BlacklistFlags in *. by rewrite H.
Qed.

Lemma Categories_Add_valid_token (isPrintWide : N → bool) (s : list string) (t : string) :
  t ∈ CategoryNames → Categories_Add isPrintWide s t = ((s ++ [t])%list, None).
Proof.
  intros H%switch_case_elem_of. unfold Categories_Add, CategoryNames in *. by rewrite H.
Qed.

(** C4. For each validated setter (blacklist-flag [Add], category [Add],
    language [Set], type [Set]) and every raw string outside the field's
    vocabulary, the setter returns the error [invalid <field>: ] followed
    by the value as [%q] quotes it, and leaves the field as it was; for
    every string of the vocabulary it appends or assigns the value and
    returns no error. A plain value (printable ASCII, no double quote, no
    backslash) is quoted by putting it between double quotes. *)
Theorem setters_validate (isPrintWide : N → bool) (raw : string) :
  (∀ s : list string,
     (raw ∉ BlacklistFlags →
      Flags_Add isPrintWide s raw
      = (s, Some (errorString ("invalid flag: " +:+ Quote isPrintWide raw))))
     ∧ (raw ∈ BlacklistFlags → Flags_Add isPrintWide s raw = ((s ++ [raw])%list, None)))
  ∧ (∀ s : list string,
     (raw ∉ CategoryNames →
      Categories_Add isPrintWide s raw
      = (s, Some (errorString ("invalid category: " +:+ Quote isPrintWide raw))))
     ∧ (raw ∈ CategoryNames → Categories_Add isPrintWide s raw = ((s ++ [raw])%list, None)))
  ∧ (∀ s : string,
     (raw ∉ Languages →
      Lang_Set isPrintWide s raw
      = (s, Some (errorString ("invalid lang code: " +:+ Quote isPrintWide raw))))
     ∧ (raw ∈ Languages → Lang_Set isPrintWide s raw = (raw, None)))
  ∧ (∀ s : string,
     (raw ∉ JokeTypes →
      Type_Set isPrintWide s raw
      = (s, Some (errorString ("invalid type: " +:+ Quote isPrintWide raw))))
     ∧ (raw ∈ JokeTypes → Type_Set isPrintWide s raw = (raw, None)))
  ∧ (plain raw = true →
     Quote isPrintWide raw = String dquote raw +:+ String dquote "").
Proof.
  unfold Flags_Add, Categories_Add, Lang_Set, Type_Set, Errorf_q, Sprintf_q.
  repeat split.
  - intros H%switch_case_not_elem_of. unfold BlacklistFlags in H. by rewrite H.
  - apply Flags_Add_valid_token.
  - intros H%switch_case_not_elem_of. unfold CategoryNames in H. by rewrite H.
  - apply Categories_Add_valid_token.
  - intros H%switch_case_not_elem_of. unfold Languages in H. by rewrite H.
  - intros H%switch_case_elem_of. unfold Languages in H. by rewrite H.
  - intros H%switch_case_not_elem_of. unfold JokeTypes in H. by rewrite H.
  - intros H%switch_case_elem_of. unfold JokeTypes in H. by rewrite H.
  - apply Quote_plain.
Qed.

(** The theorem at the raw string [invalid] and at a token of each
    vocabulary. *)
Lemma setters_validate_witness :
  Flags_Add no_print [Nsfw] "invalid"
  = ([Nsfw], Some (errorString ("invalid flag: " +:+ String dquote "invalid"
                                +:+ String dquote "")))
  ∧ Categories_Add no_print [Dark] "Pun" = ([Dark; Pun], None)
  ∧ Lang_Set no_print "en" "invalid"
    = ("en", Some (errorString ("invalid lang code: " +:+ String dquote "invalid"
                                +:+ String dquote "")))
  ∧ Type_Set no_print "" "twopart" = ("twopart", None).
Proof.
  pose proof (setters_validate no_print "invalid") as (HF & _ & HL & _ & HQ).
  pose proof (setters_validate no_print "Pun") as (_ & HC & _).
  pose proof (setters_validate no_print "twopart") as (_ & _ & _ & HT & _).
  rewrite <- (HQ eq_refl).
  split; [apply HF, switch_case_not_elem_of; reflexivity|].
  split; [apply HC, switch_case_elem_of; reflexivity|].
  split; [apply HL, switch_case_not_elem_of; reflexivity|].
  apply HT, switch_case_elem_of. reflexivity.
Defined.

(** C9, as the code has it. The blacklist and the category list are
    sequences of validated tokens, in insertion order: for every
    collection and every token of the vocabulary, [Add] appends the token
    and returns no error, whether or not the token is already there; the
    token then occurs once more than before, so adding a token that is
    present leaves a duplicate. *)
Theorem Add_appends_every_valid_token (isPrintWide : N → bool)
    (s : list string) (t : string) :
  (t ∈ BlacklistFlags →
     Flags_Add isPrintWide s t = ((s ++ [t])%list, None)
     ∧ length (filter (λ x, x = t) (fst (Flags_Add isPrintWide s t)))
       = S (length (filter (λ x, x = t) s))
     ∧ (t ∈ s → ¬ NoDup (fst (Flags_Add isPrintWide s t))))
  ∧ (t ∈ CategoryNames →
     Categories_Add isPrintWide s t = ((s ++ [t])%list, None)
     ∧ length (filter (λ x, x = t) (fst (Categories_Add isPrintWide s t)))
       = S (length (filter (λ x, x = t) s))
     ∧ (t ∈ s → ¬ NoDup (fst (Categories_Add isPrintWide s t)))).
Proof.
  assert (Hcount : length (filter (λ x, x = t) (s ++ [t])%list)
                   = S (length (filter (λ x, x = t) s))).
  { rewrite filter_app, length_app, filter_cons_True by done. simpl. lia. }
  assert (Hdup : t ∈ s → ¬ NoDup (s ++ [t])%list).
  { intros Hin Hnd. apply NoDup_app in Hnd as (_ & Hnd & _).
    apply (Hnd t Hin). by apply list_elem_of_singleton. }
  split; intros Hv.
  - rewrite Flags_Add_valid_token by done. by cbn [fst].
  - rewrite Categories_Add_valid_token by done. by cbn [fst].
Qed.

Lemma Add_appends_every_valid_token_witness :
  Flags_Add no_print [Nsfw; Racist] "nsfw" = ([Nsfw; Racist; Nsfw], None)
  ∧ Categories_Add no_print [Dark] "Dark" = ([Dark; Dark], None).
Proof.
  split.
  - apply (Add_appends_every_valid_token no_print [Nsfw; Racist] "nsfw").
    apply switch_case_elem_of. reflexivity.
  - apply (Add_appends_every_valid_token no_print [Dark] "Dark").
    apply switch_case_elem_of. reflexivity.
Defined.

(** C9, as stated, fails: adding a valid token that is already present
    succeeds and leaves the token twice in the collection. *)
Lemma Add_present_token_duplicates :
  Flags_Add no_print [Nsfw] "nsfw" = ([Nsfw; Nsfw], None)
  ∧ Categories_Add no_print [Dark] "Dark" = ([Dark; Dark], None)
  ∧ ¬ NoDup (fst (Flags_Add no_print [Nsfw] "nsfw"))
  ∧ ¬ NoDup (fst (Categories_Add no_print [Dark] "Dark")).
Proof.
  repeat split.
  - intros H. apply NoDup_cons in H as [H _]. apply H. by left.
  - intros H. apply NoDup_cons in H as [H _]. apply H. by left.
Qed.

(** ** ParseResponse *)

Lemma raw_lookup_snoc (kvs : list (string * json)) (k : string) (v : json) (key : string)
    (m : gmap string json) :
  foldl (λ m kv, <[fst kv := snd kv]> m) m (kvs ++ [(k, v)]) !! key
  = if String.eqb k key then Some v
    else foldl (λ m kv, <[fst kv := snd kv]> m) m kvs !! key.
Proof.
  rewrite foldl_snoc. cbn [fst snd]. rewrite lookup_insert.
  destruct (String.eqb_spec k key); by case_decide.
Qed.

Lemma last_member_app (key : string) (l1 l2 : list (string * json)) :
  last_member key (l1 ++ l2)
  = match last_member key l2 with
    | Some v => Some v
    | None => last_member key l1
    end.
Proof.
  induction l1 as [|[k v] l1 IH]; simpl.
  - by destruct (last_member key l2).
  - rewrite IH. by destruct (last_member key l2).
Qed.

(** The raw map holds under a key the last member with that key. *)
Lemma raw_lookup_last_member (kvs : list (string * json)) (key : string) :
  foldl (λ m kv, <[fst kv := snd kv]> m) (∅ : gmap string json) kvs !! key
  = last_member key kvs.
Proof.
  induction kvs as [|[k v] kvs IH] using rev_ind; [apply lookup_empty|].
  rewrite raw_lookup_snoc, last_member_app, IH. simpl.
  by destruct (String.eqb k key).
Qed.

Lemma last_member_None (key : string) (kvs : list (string * json)) :
  last_member key kvs = None ↔ key ∉ kvs.*1.
Proof.
  induction kvs as [|[k v] kvs IH]; simpl.
  - split; [intros _; apply not_elem_of_nil | done].
  - rewrite not_elem_of_cons, <- IH.
    destruct (last_member key kvs).
    { split; [done | by intros [_ ?]]. }
    destruct (String.eqb_spec k key) as [->|Hne].
    { split; [done | by intros [? _]]. }
    split; [|done]. intros _. split; [congruence | done].
Qed.

Lemma bind_Ok {A B} (r : result A) (k : A → result B) (b : B) :
  r ≫= k = Ok b ↔ ∃ a, r = Ok a ∧ k a = Ok b.
Proof.
  destruct r as [a|e]; simpl; split.
  - intros H. by exists a.
  - by intros (a' & [= ->] & H).
  - done.
  - by intros (a' & [=] & _).
Qed.

Lemma bind_Err {A B} (r : result A) (k : A → result B) (e : error) :
  r ≫= k = Err e ↔ r = Err e ∨ ∃ a, r = Ok a ∧ k a = Err e.
Proof.
  destruct r as [a|e']; simpl; split.
  - intros H. right. by exists a.
  - by intros [[=]|(a' & [= ->] & H)].
  - intros [= ->]. by left.
  - by intros [[= ->]|(a' & [=] & _)].
Qed.

(** How [ParseResponse] branches once the discriminator is read. *)
Lemma ParseResponse_dispatch (spare : gotype → nat → nat) (jsn : json)
    (raw : gmap string json) (err : json) (isErr : bool) :
  Unmarshal_raw jsn = Ok raw →
  raw !! "error" = Some err →
  Unmarshal_bool err false = Ok isErr →
  ParseResponse spare jsn
  = if isErr then
      match Unmarshal_ErrorResponse spare jsn zero_ErrorResponse with
      | Ok r => ([], Some (APIError r))
      | Err e => ([], Some e)
      end
    else if bool_decide (is_Some (raw !! "amount")) then
      match Unmarshal_Jokes spare jsn zero_Jokes with
      | Ok jokes => (elems (Jokes_Jokes jokes), None)
      | Err e => ([], Some e)
      end
    else
      match Unmarshal_Joke jsn zero_Joke with
      | Ok joke => ([joke], None)
      | Err e => ([], Some e)
      end.
Proof.
  intros Hraw Herr Hbool. unfold ParseResponse. rewrite Hraw, Herr, Hbool.
  destruct isErr; [reflexivity|].
  destruct (raw !! "amount") as [a|]; reflexivity.
Qed.

(** *** The decoders fail with type errors only *)

Lemma value_string_type_error ty v old e :
  value_string ty v old = Err e → is_type_error e.
Proof. destruct v; simpl; intros [= <-]; by eexists _, _. Qed.

Lemma value_bool_type_error ty v old e :
  value_bool ty v old = Err e → is_type_error e.
Proof. destruct v; simpl; intros [= <-]; by eexists _, _. Qed.

Lemma value_int_type_error ty v old e :
  value_int ty v old = Err e → is_type_error e.
Proof.
  destruct v as [| |[z|t]| | |]; simpl; try (intros [= <-]; by eexists _, _).
  destruct (in_int64 z); intros [= <-]; by eexists _, _.
Qed.

Lemma object_map_bool_type_error kvs m e :
  object_map_bool kvs m = Err e → is_type_error e.
Proof.
  revert m. induction kvs as [|[k v] kvs IH]; intros m; simpl; [done|].
  intros [H|(b & _ & H)]%bind_Err.
  - by eapply value_bool_type_error.
  - by eapply IH.
Qed.

Lemma value_map_bool_type_error v old e :
  value_map_bool v old = Err e → is_type_error e.
Proof.
  destruct v; simpl; try (intros [= <-]; by eexists _, _).
  apply object_map_bool_type_error.
Qed.

Section SliceErrors.
Context (spare : gotype → nat → nat) {A : Type} (zero : A)
        (value : json → A → result A) (ty : gotype).
Hypothesis value_type_error : ∀ x a e, value x a = Err e → is_type_error e.

Lemma array_loop_type_error vs i v e :
  array_loop spare zero value ty vs i v = Err e → is_type_error e.
Proof.
  revert i v. induction vs as [|x vs IH]; intros i v; simpl; [done|].
  intros [H|(a & _ & H)]%bind_Err.
  - by eapply value_type_error.
  - by eapply IH.
Qed.

Lemma value_slice_type_error x old e :
  value_slice spare zero value ty x old = Err e → is_type_error e.
Proof.
  destruct x; simpl; try (intros [= <-]; by eexists _, _).
  unfold array_slice. intros [H|([i v] & _ & H)]%bind_Err; [|done].
  by eapply array_loop_type_error.
Qed.
End SliceErrors.

Section StructErrors.
Context {F T : Type} (ty : gotype) (fields : list (string * F))
        (set : F → json → T → result T).
Hypothesis set_type_error : ∀ f v t e, set f v t = Err e → is_type_error e.

Lemma object_struct_type_error kvs t e :
  object_struct fields set kvs t = Err e → is_type_error e.
Proof.
  revert t. induction kvs as [|[k v] kvs IH]; intros t; simpl; [done|].
  destruct (find_field fields k) as [f|]; [|apply IH].
  intros [H|(a & _ & H)]%bind_Err.
  - by eapply set_type_error.
  - by eapply IH.
Qed.

Lemma value_struct_type_error v old e :
  value_struct ty fields set v old = Err e → is_type_error e.
Proof.
  destruct v; simpl; try (intros [= <-]; by eexists _, _).
  apply object_struct_type_error.
Qed.
End StructErrors.

Lemma set_Joke_field_type_error f v j e :
  set_Joke_field f v j = Err e → is_type_error e.
Proof.
  destruct j, f; simpl; intros [H|(a & _ & [=])]%bind_Err;
    eauto using value_string_type_error, value_bool_type_error,
                value_int_type_error, value_map_bool_type_error.
Qed.

Lemma value_Joke_type_error v old e : value_Joke v old = Err e → is_type_error e.
Proof. apply value_struct_type_error, set_Joke_field_type_error. Qed.

Lemma Unmarshal_ErrorResponse_type_error spare jsn old e :
  Unmarshal_ErrorResponse spare jsn old = Err e → is_type_error e.
Proof.
  apply value_struct_type_error. clear. intros f v t e.
  destruct t, f; simpl; intros [H|(a & _ & [=])]%bind_Err;
    eauto using value_string_type_error, value_bool_type_error,
                value_int_type_error, value_slice_type_error.
Qed.

Lemma Unmarshal_Jokes_type_error spare jsn old e :
  Unmarshal_Jokes spare jsn old = Err e → is_type_error e.
Proof.
  apply value_struct_type_error. clear. intros f v t e.
  destruct f; simpl; intros [H|(a & _ & [=])]%bind_Err.
  eapply value_slice_type_error; [|exact H]. apply value_Joke_type_error.
Qed.

Lemma error_decodes_to_true (jsn : json) :
  error_decodes_to jsn true ↔
  ∃ kvs, jsn = JObject kvs ∧ last_member "error" kvs = Some (JBool true).
Proof.
  unfold error_decodes_to. split.
  - intros (raw & err & Hraw & Herr & Hb).
    destruct jsn; simpl in Hraw; try discriminate.
    + injection Hraw as <-. by rewrite lookup_empty in Herr.
    + injection Hraw as <-. rewrite raw_lookup_last_member in Herr.
      eexists; split; [done|]. rewrite Herr.
      destruct err as [|[]| | | |]; simpl in Hb; by try discriminate.
  - intros (kvs & -> & H). eexists _, _. split; [reflexivity|].
    by rewrite raw_lookup_last_member.
Qed.

Lemma error_decodes_to_false (jsn : json) :
  error_decodes_to jsn false ↔
  ∃ kvs, jsn = JObject kvs
         ∧ (last_member "error" kvs = Some (JBool false)
            ∨ last_member "error" kvs = Some JNull).
Proof.
  unfold error_decodes_to. split.
  - intros (raw & err & Hraw & Herr & Hb).
    destruct jsn; simpl in Hraw; try discriminate.
    + injection Hraw as <-. by rewrite lookup_empty in Herr.
    + injection Hraw as <-. rewrite raw_lookup_last_member in Herr.
      eexists; split; [done|]. rewrite Herr.
      destruct err as [|[]| | | |]; simpl in Hb; try discriminate; auto.
  - intros (kvs & -> & [H|H]); eexists _, _; (split; [reflexivity|]);
      by rewrite raw_lookup_last_member.
Qed.

Lemma has_member_last_member (key : string) (kvs : list (string * json)) :
  has_member key (JObject kvs) ↔ key ∈ kvs.*1.
Proof.
  unfold has_member. simpl. split.
  - intros (raw & [= <-] & [v Hv]). rewrite raw_lookup_last_member in Hv.
    destruct (decide (key ∈ kvs.*1)) as [|Hn]; [done|].
    apply last_member_None in Hn. congruence.
  - intros Hin. eexists; split; [reflexivity|]. rewrite raw_lookup_last_member.
    destruct (last_member key kvs) eqn:E; [done|].
    by apply last_member_None in E.
Qed.

(** C5. For every JSON object with no [error] key at all, [ParseResponse]
    fails with the error [response has no "error" property] (the required
    discriminator is missing) and returns no jokes. *)
Theorem ParseResponse_without_error_key (spare : gotype → nat → nat)
    (kvs : list (string * json)) :
  "error" ∉ kvs.*1 →
  ParseResponse spare (JObject kvs) = ([], Some (errorString no_error_property)).
Proof.
  intros H%last_member_None. unfold ParseResponse. simpl.
  by rewrite raw_lookup_last_member, H.
Qed.

(** The theorem at a joke whose [error] member is missing. *)
Lemma ParseResponse_without_error_key_witness :
  ParseResponse spare_half
    (JObject [("id", JNumber (Integer 7)); ("joke", JString "x");
              ("type", JString "single")])
  = ([], Some (errorString no_error_property)).
Proof.
  apply ParseResponse_without_error_key.
  cbn [fmap list_fmap fst]. rewrite !not_elem_of_cons.
  repeat split; (discriminate || apply not_elem_of_nil).
Defined.

(** C10. For every input whose [error] field decodes to true but whose
    payload fails to decode as an [ErrorResponse], [ParseResponse] returns
    the decoder's error, which is a JSON type error and no [APIError], and
    returns no joke sequence. *)
Theorem ParseResponse_error_payload_undecodable (spare : gotype → nat → nat)
    (jsn : json) (e : error) :
  error_decodes_to jsn true →
  Unmarshal_ErrorResponse spare jsn zero_ErrorResponse = Err e →
  ParseResponse spare jsn = ([], Some e)
  ∧ is_type_error e
  ∧ (∀ r : ErrorResponse, e ≠ APIError r).
Proof.
  intros (raw & err & Hraw & Herr & Hb) He.
  rewrite (ParseResponse_dispatch spare jsn raw err true) by done.
  rewrite He. split; [reflexivity|].
  apply Unmarshal_ErrorResponse_type_error in He.
  split; [exact He|]. intros r ->. by destruct He as (? & ? & [=]).
Qed.

(** The theorem at an error payload whose message is a number. *)
Lemma ParseResponse_error_payload_undecodable_witness :
  ParseResponse spare_half
    (JObject [("error", JBool true); ("message", JNumber (Integer 5))])
  = ([], Some (UnmarshalTypeError KNumber T_string)).
Proof.
  apply ParseResponse_error_payload_undecodable.
  - apply error_decodes_to_true. eexists. split; reflexivity.
  - reflexivity.
Defined.

(** *** The message and the additional info of an error payload *)

Lemma set_ErrorResponse_field_strings spare f v t t' :
  set_ErrorResponse_field spare f v t = Ok t' →
  ErrorResponse_Message t'
  = match v with
    | JString s => if is_F_message f then s else ErrorResponse_Message t
    | _ => ErrorResponse_Message t
    end
  ∧ ErrorResponse_Info t'
    = match v with
      | JString s => if is_F_additionalInfo f then s else ErrorResponse_Info t
      | _ => ErrorResponse_Info t
      end.
Proof.
  destruct t as [cause code info internal message time].
  destruct f; cbn [set_ErrorResponse_field];
    intros (x & Hx & [= <-])%bind_Ok; cbn [ErrorResponse_Message ErrorResponse_Info];
    try (by destruct v);
    destruct v; simpl in Hx; by try (discriminate || injection Hx as <-).
Qed.

Lemma object_ErrorResponse_strings spare kvs t r :
  object_struct ErrorResponse_fields (set_ErrorResponse_field spare) kvs t = Ok r →
  ErrorResponse_Message r
  = string_member ErrorResponse_fields is_F_message kvs (ErrorResponse_Message t)
  ∧ ErrorResponse_Info r
    = string_member ErrorResponse_fields is_F_additionalInfo kvs (ErrorResponse_Info t).
Proof.
  revert t. induction kvs as [|[k v] kvs IH]; intros t.
  - simpl. by intros [= <-].
  - cbn [object_struct string_member].
    destruct (find_field ErrorResponse_fields k) as [f|].
    + intros (t' & Hset & Hrest)%bind_Ok.
      apply set_ErrorResponse_field_strings in Hset as [Hm Hi].
      apply IH in Hrest as [-> ->]. rewrite Hm, Hi. by destruct v.
    + intros Hrest. apply IH in Hrest as [-> ->]. done.
Qed.

Example message_of_error_payload :
  string_member ErrorResponse_fields is_F_message
    [("error", JBool true); ("code", JNumber (Integer 106));
     ("message", JString "No matching joke found");
     ("additionalInfo", JString "No jokes were found that match your filters")] ""
  = "No matching joke found".
Proof. reflexivity. Qed.

(** C2, as the code has it. For every input whose [error] field decodes to
    true and whose payload decodes as an [ErrorResponse], [ParseResponse]
    returns that [ErrorResponse] as the error, with no joke sequence; its
    string form is the message, a colon and a space, and the additional
    info, the message and the info being those of the payload. *)
Theorem ParseResponse_error_payload (spare : gotype → nat → nat) (jsn : json)
    (r : ErrorResponse) :
  error_decodes_to jsn true →
  Unmarshal_ErrorResponse spare jsn zero_ErrorResponse = Ok r →
  ParseResponse spare jsn = ([], Some (APIError r))
  ∧ ErrorResponse_Error r = ErrorResponse_Message r +:+ ": " +:+ ErrorResponse_Info r
  ∧ ∃ kvs, jsn = JObject kvs
      ∧ ErrorResponse_Error r
        = string_member ErrorResponse_fields is_F_message kvs ""
          +:+ ": "
          +:+ string_member ErrorResponse_fields is_F_additionalInfo kvs "".
Proof.
  intros Herr Hr.
  pose proof Herr as (raw & err & Hraw & Hlook & Hb).
  rewrite (ParseResponse_dispatch spare jsn raw err true) by done.
  rewrite Hr. split; [reflexivity|]. split; [reflexivity|].
  apply error_decodes_to_true in Herr as (kvs & -> & _).
  exists kvs. split; [reflexivity|].
  apply object_ErrorResponse_strings in Hr as [Hm Hi].
  unfold ErrorResponse_Error. by rewrite Hm, Hi.
Qed.

(** The theorem at the error payload with message [m] and info [i]. *)
Lemma ParseResponse_error_payload_witness :
  ∃ r, ParseResponse spare_half
         (JObject [("error", JBool true); ("internalError", JBool false);
                   ("code", JNumber (Integer 106)); ("message", JString "m");
                   ("causedBy", JArray [JString "c"]);
                   ("additionalInfo", JString "i");
                   ("timestamp", JNumber (Integer 1579170794412))])
       = ([], Some (APIError r))
       ∧ ErrorResponse_Error r = "m: i".
Proof.
  eexists. 
  edestruct (ParseResponse_error_payload spare_half
    (JObject [("error", JBool true); ("internalError", JBool false);
              ("code", JNumber (Integer 106)); ("message", JString "m");
              ("causedBy", JArray [JString "c"]);
              ("additionalInfo", JString "i");
              ("timestamp", JNumber (Integer 1579170794412))]))
    as (HP & HE & _).
  - apply error_decodes_to_true. eexists. split; reflexivity.
  - reflexivity.
  - split; [exact HP | reflexivity].
Defined.

(** C2, as stated, fails where the payload does not decode as an
    [ErrorResponse]: the [error] field is true and the error returned is
    the decoder's type error, no [ErrorResponse]. *)
Lemma ParseResponse_error_true_no_ErrorResponse :
  error_decodes_to
    (JObject [("error", JBool true); ("message", JNumber (Integer 5))]) true
  ∧ ParseResponse spare_half
      (JObject [("error", JBool true); ("message", JNumber (Integer 5))])
    = ([], Some (UnmarshalTypeError KNumber T_string))
  ∧ ¬ ∃ r, ParseResponse spare_half
             (JObject [("error", JBool true); ("message", JNumber (Integer 5))])
           = ([], Some (APIError r)).
Proof.
  split; [|split].
  - apply error_decodes_to_true. eexists. split; reflexivity.
  - reflexivity.
  - intros [r [=]].
Qed.

(** *** The jokes of a list payload *)

Lemma object_struct_skip {F T} (fields : list (string * F))
    (set : F → json → T → result T) (pre rest : list (string * json)) (t : T) :
  Forall (λ kv, find_field fields (fst kv) = None) pre →
  object_struct fields set (pre ++ rest) t = object_struct fields set rest t.
Proof.
  induction 1 as [|[k v] pre Hk _ IH]; [reflexivity|].
  simpl in *. by rewrite Hk.
Qed.

Lemma object_struct_skip_all {F T} (fields : list (string * F))
    (set : F → json → T → result T) (kvs : list (string * json)) (t : T) :
  Forall (λ kv, find_field fields (fst kv) = None) kvs →
  object_struct fields set kvs t = Ok t.
Proof.
  intros H. rewrite <- (app_nil_r kvs). by rewrite object_struct_skip.
Qed.

Section FreshSlice.
Context (spare : gotype → nat → nat) {A : Type} (zero : A)
        (value : json → A → result A) (ty : gotype).

(** Decoding into a backing array whose elements from the length on are
    all zero: every element is decoded from the zero value. *)
Lemma array_loop_fresh (vs : list json) (js : list A) :
  Forall2 (λ v j, value v zero = Ok j) vs js →
  ∀ (done : list A) (m : nat),
    ∃ m',
      array_loop spare zero value ty vs (length done)
        (mk_slice (done ++ replicate m zero)%list (length done))
      = Ok ((length done + length vs)%nat,
            mk_slice ((done ++ js) ++ replicate m' zero)%list
                     (length done + length vs)%nat).
Proof.
  induction 1 as [|x j vs js Hx _ IH]; intros done m.
  - exists m. simpl. by rewrite app_nil_r, Nat.add_0_r.
  - cbn [array_loop]. cbv zeta.
    assert (Hgrow : ∃ m1,
      (if (length (array (mk_slice (done ++ replicate m zero)%list (length done)))
           <=? length done)%nat
       then grow spare zero ty (mk_slice (done ++ replicate m zero)%list (length done))
       else mk_slice (done ++ replicate m zero)%list (length done))
      = mk_slice (done ++ replicate (S m1) zero)%list (length done)).
    { cbn [array]. rewrite length_app, length_replicate.
      destruct m as [|m].
      - replace (length done + 0 <=? length done)%nat with true
          by (symmetry; apply Nat.leb_le; lia).
        unfold grow. cbn [array len]. rewrite app_nil_r, firstn_all.
        exists (spare ty (length done)).
        by replace (length done + 1 + spare ty (length done) - length done)%nat
          with (S (spare ty (length done))) by lia.
      - replace (length done + S m <=? length done)%nat with false
          by (symmetry; apply Nat.leb_gt; lia).
        by exists m. }
    destruct Hgrow as [m1 ->]. cbn [len array].
    rewrite Nat.leb_refl. cbn [len array].
    rewrite app_nth2, Nat.sub_diag by lia. cbn [replicate nth].
    rewrite Hx. cbn [mbind result_bind].
    replace (<[length done := j]> (done ++ zero :: replicate m1 zero)%list)
      with ((done ++ [j]) ++ replicate m1 zero)%list.
    2:{ rewrite insert_app_r_alt, Nat.sub_diag by lia. cbn.
        by rewrite <- app_assoc. }
    destruct (IH (done ++ [j])%list m1) as [m' Hm'].
    rewrite length_app in Hm'. cbn [length] in Hm'.
    replace (S (length done)) with (length done + 1)%nat by lia.
    rewrite Hm'. exists m'. cbn [length].
    replace (length done + 1 + length vs)%nat
      with (length done + S (length vs))%nat by lia.
    by rewrite <- (app_assoc done [j] js).
Qed.

(** An array decoded into a [nil] slice gives its elements, each decoded
    from the zero value, in the order of the array. *)
Lemma array_slice_nil (vs : list json) (js : list A) :
  Forall2 (λ v j, value v zero = Ok j) vs js →
  ∃ s, array_slice spare zero value ty vs nil_slice = Ok s ∧ elems s = js.
Proof.
  intros H. pose proof (Forall2_length _ _ _ H) as Hlen.
  destruct (array_loop_fresh vs js H [] 0) as [m' Hm'].
  cbn [app length replicate] in Hm'. rewrite Nat.add_0_l in Hm'.
  unfold array_slice, nil_slice. rewrite Hm'. cbn [mbind result_bind len array].
  rewrite Nat.ltb_irrefl. eexists. split; [reflexivity|].
  destruct vs as [|v vs].
  - destruct js; [reflexivity | discriminate].
  - cbn [length Nat.eqb]. unfold elems. cbn [len array].
    cbn [length] in Hlen. rewrite Hlen. by rewrite take_app_length.
Qed.
End FreshSlice.

(** A key names a field up to case; the discriminators name no field of
    the list wrapper. *)
Example jokes_key_up_to_case :
  find_field Jokes_fields "jokes" = Some F_jokes
  ∧ find_field Jokes_fields "JOKES" = Some F_jokes
  ∧ find_field Jokes_fields "error" = None
  ∧ find_field Jokes_fields "amount" = None.
Proof. repeat split. Qed.

(** A [jokes] member that occurs twice is decoded twice into the same
    slice: the second array is decoded into the elements of the first. *)
Example jokes_member_twice :
  ParseResponse spare_half
    (JObject [("error", JBool false); ("amount", JNumber (Integer 1));
              ("jokes", JArray [JObject [("id", JNumber (Integer 1));
                                         ("joke", JString "a")]]);
              ("jokes", JArray [JObject [("id", JNumber (Integer 2))]])])
  = ([mk_Joke "" "" ∅ 2 "a" "" false "" ""], None).
Proof. reflexivity. Qed.

Lemma Unmarshal_Jokes_one_member spare pre k vs post js :
  find_field Jokes_fields k = Some F_jokes →
  Forall (λ kv, find_field Jokes_fields (fst kv) = None) (pre ++ post) →
  Forall2 (λ v j, Unmarshal_Joke v zero_Joke = Ok j) vs js →
  ∃ w, Unmarshal_Jokes spare (JObject (pre ++ (k, JArray vs) :: post)) zero_Jokes = Ok w
       ∧ elems (Jokes_Jokes w) = js.
Proof.
  intros Hk [Hpre Hpost]%Forall_app Hvs.
  destruct (array_slice_nil spare zero_Joke value_Joke T_slice_Joke vs js Hvs)
    as (s & Hs & Hjs).
  exists (mk_Jokes s). split; [|exact Hjs].
  unfold Unmarshal_Jokes, value_struct.
  rewrite object_struct_skip by done.
  cbn [object_struct]. rewrite Hk.
  cbn [set_Jokes_field value_slice Jokes_Jokes zero_Jokes]. rewrite Hs.
  cbn [mbind result_bind]. by apply object_struct_skip_all.
Qed.

(** C1, as the code has it. For every JSON object whose [error] field
    decodes to false: if an [amount] key is present and the payload
    decodes as the list wrapper, [ParseResponse] returns the jokes of the
    wrapper and no error -- for a payload with one [jokes] member, an
    array, these are its elements decoded as Joke records, in order; if no
    [amount] key is present and the payload decodes as a single Joke, it
    returns the one-element sequence with that Joke and no error; and when
    the payload does not decode, it returns the decoder's type error and
    no jokes. *)
Theorem ParseResponse_joke_payload (spare : gotype → nat → nat) (jsn : json) :
  error_decodes_to jsn false →
  (has_member "amount" jsn →
     (∀ w, Unmarshal_Jokes spare jsn zero_Jokes = Ok w →
           ParseResponse spare jsn = (elems (Jokes_Jokes w), None))
     ∧ (∀ pre k vs post js,
          jsn = JObject (pre ++ (k, JArray vs) :: post) →
          find_field Jokes_fields k = Some F_jokes →
          Forall (λ kv, find_field Jokes_fields (fst kv) = None) (pre ++ post) →
          Forall2 (λ v j, Unmarshal_Joke v zero_Joke = Ok j) vs js →
          ParseResponse spare jsn = (js, None))
     ∧ (∀ e, Unmarshal_Jokes spare jsn zero_Jokes = Err e →
             ParseResponse spare jsn = ([], Some e) ∧ is_type_error e))
  ∧ (¬ has_member "amount" jsn →
     (∀ j, Unmarshal_Joke jsn zero_Joke = Ok j →
           ParseResponse spare jsn = ([j], None))
     ∧ (∀ e, Unmarshal_Joke jsn zero_Joke = Err e →
             ParseResponse spare jsn = ([], Some e) ∧ is_type_error e)).
Proof.
  intros (raw & err & Hraw & Herr & Hb).
  rewrite (ParseResponse_dispatch spare jsn raw err false) by done.
  split.
  - intros (raw' & Hraw' & Hamount).
    assert (raw' = raw) as -> by congruence.
    rewrite bool_decide_eq_true_2 by done.
    split; [|split].
    + by intros w ->.
    + intros pre k vs post js -> Hk Hrest Hvs.
      destruct (Unmarshal_Jokes_one_member spare pre k vs post js Hk Hrest Hvs)
        as (w & -> & <-).
      reflexivity.
    + intros e He. rewrite He. split; [reflexivity|].
      by eapply Unmarshal_Jokes_type_error.
  - intros Hno.
    rewrite bool_decide_eq_false_2.
    2:{ intros Hs. apply Hno. by exists raw. }
    split.
    + by intros j ->.
    + intros e He. rewrite He. split; [reflexivity|].
      by eapply value_Joke_type_error.
Qed.

(** The theorem at a list payload of two jokes. *)
Lemma ParseResponse_joke_payload_witness :
  ParseResponse spare_half
    (JObject
       [("error", JBool false); ("amount", JNumber (Integer 2));
        ("jokes",
         JArray
           [JObject [("category", JString "Pun"); ("type", JString "single");
                     ("joke", JString "a"); ("id", JNumber (Integer 1));
                     ("safe", JBool true); ("lang", JString "en")];
            JObject [("category", JString "Dark"); ("type", JString "twopart");
                     ("setup", JString "s"); ("delivery", JString "d");
                     ("id", JNumber (Integer 2)); ("lang", JString "en")]])])
  = ([mk_Joke "Pun" "" ∅ 1 "a" "en" true "" "single";
      mk_Joke "Dark" "d" ∅ 2 "" "en" false "s" "twopart"], None).
Proof.
  eapply (ParseResponse_joke_payload spare_half _).
  - apply error_decodes_to_false. eexists. split; [reflexivity|]. by left.
  - apply has_member_last_member. cbn [fmap list_fmap fst].
    apply elem_of_cons. right. apply elem_of_cons. by left.
  - exact (eq_refl : _ = JObject ([("error", JBool false);
                                   ("amount", JNumber (Integer 2))]
                                  ++ ("jokes", JArray _) :: [])).
  - reflexivity.
  - by repeat constructor.
  - by repeat constructor.
Defined.

(** C1, as stated, fails where the payload does not decode: the [error]
    field is false and [ParseResponse] returns a type error and no joke,
    although the first element under [jokes] is a joke record (list
    payload), and although the payload holds a joke text (single joke). *)
Lemma ParseResponse_error_false_no_jokes :
  (error_decodes_to
     (JObject [("error", JBool false); ("amount", JNumber (Integer 2));
               ("jokes", JArray [JObject [("id", JNumber (Integer 1));
                                          ("joke", JString "a")];
                                 JObject [("id", JString "two")]])]) false
   ∧ Unmarshal_Joke (JObject [("id", JNumber (Integer 1)); ("joke", JString "a")])
       zero_Joke
     = Ok (mk_Joke "" "" ∅ 1 "a" "" false "" "")
   ∧ ParseResponse spare_half
       (JObject [("error", JBool false); ("amount", JNumber (Integer 2));
                 ("jokes", JArray [JObject [("id", JNumber (Integer 1));
                                            ("joke", JString "a")];
                                   JObject [("id", JString "two")]])])
     = ([], Some (UnmarshalTypeError KString T_int)))
  ∧ (error_decodes_to
       (JObject [("error", JBool false); ("id", JString "x");
                 ("joke", JString "a")]) false
     ∧ ParseResponse spare_half
         (JObject [("error", JBool false); ("id", JString "x");
                   ("joke", JString "a")])
       = ([], Some (UnmarshalTypeError KString T_int))).
Proof.
  repeat split;
    try (apply error_decodes_to_false; eexists; split; [reflexivity|]; by left).
Qed.

(** The theorem at the request with no field set. *)
Lemma Query_keys_exactly_set_fields_witness :
  Request_Query NewRequest = ∅.
Proof.
  apply (Query_keys_exactly_set_fields NewRequest).
  simpl. repeat split; (reflexivity || lia).
Defined.

(** * Further properties of the package *)

(** ** ParseResponse: the discriminators *)

(** [ParseResponse] on an object, with the lookups of the raw map read as
    the last member with the key. *)
Lemma ParseResponse_object (spare : gotype → nat → nat) (kvs : list (string * json)) :
  ParseResponse spare (JObject kvs)
  = match last_member "error" kvs with
    | None => ([], Some (errorString no_error_property))
    | Some err =>
        match Unmarshal_bool err false with
        | Err e => ([], Some e)
        | Ok true =>
            match Unmarshal_ErrorResponse spare (JObject kvs) zero_ErrorResponse with
            | Ok r => ([], Some (APIError r))
            | Err e => ([], Some e)
            end
        | Ok false =>
            match last_member "amount" kvs with
            | Some _ =>
                match Unmarshal_Jokes spare (JObject kvs) zero_Jokes with
                | Ok jokes => (elems (Jokes_Jokes jokes), None)
                | Err e => ([], Some e)
                end
            | None =>
                match Unmarshal_Joke (JObject kvs) zero_Joke with
                | Ok joke => ([joke], None)
                | Err e => ([], Some e)
                end
            end
        end
    end.
Proof.
  unfold ParseResponse. cbn [Unmarshal_raw].
  rewrite !raw_lookup_last_member.
  destruct (last_member "error" kvs) as [err|]; [|reflexivity].
  destruct (Unmarshal_bool err false) as [[]|]; reflexivity.
Qed.

(** X1. [ParseResponse] never returns jokes together with an error:
    whatever the document, the joke sequence is empty or the error is
    nil. *)
Theorem ParseResponse_jokes_or_error (spare : gotype → nat → nat) (jsn : json) :
  fst (ParseResponse spare jsn) = [] ∨ snd (ParseResponse spare jsn) = None.
Proof.
  unfold ParseResponse.
  destruct (Unmarshal_raw jsn) as [raw|]; [|by left].
  destruct (raw !! "error") as [err|]; [|by left].
  destruct (Unmarshal_bool err false) as [[]|]; [| |by left].
  - destruct (Unmarshal_ErrorResponse spare jsn zero_ErrorResponse); by left.
  - destruct (raw !! "amount").
    + destruct (Unmarshal_Jokes spare jsn zero_Jokes); [by right | by left].
    + destruct (Unmarshal_Joke jsn zero_Joke); [by right | by left].
Qed.

(** X2. When [ParseResponse] returns no error, the document is an object
    whose last [error] member is [false] or [null]; and if the object has
    no [amount] member, exactly one joke is returned. *)
Theorem ParseResponse_success (spare : gotype → nat → nat) (jsn : json)
    (jokes : list Joke) :
  ParseResponse spare jsn = (jokes, None) →
  ∃ kvs, jsn = JObject kvs
         ∧ (last_member "error" kvs = Some (JBool false)
            ∨ last_member "error" kvs = Some JNull)
         ∧ ("amount" ∉ kvs.*1 → length jokes = 1).
Proof.
  destruct jsn as [| | | | |kvs]; try discriminate.
  rewrite ParseResponse_object. intros H. exists kvs. split; [reflexivity|].
  destruct (last_member "error" kvs) as [err|]; [|discriminate].
  destruct err as [|[]| | | |]; cbn [Unmarshal_bool value_bool kind_of] in H;
    try discriminate H.
  - split; [by right|]. intros Hno%last_member_None. rewrite Hno in H.
    destruct (Unmarshal_Joke (JObject kvs) zero_Joke); [|discriminate].
    by injection H as <-.
  - destruct (Unmarshal_ErrorResponse spare (JObject kvs) zero_ErrorResponse);
      discriminate.
  - split; [by left|]. intros Hno%last_member_None. rewrite Hno in H.
    destruct (Unmarshal_Joke (JObject kvs) zero_Joke); [|discriminate].
    by injection H as <-.
Qed.

Lemma ParseResponse_success_witness :
  ∃ kvs, JObject [("error", JNull); ("joke", JString "x")] = JObject kvs
         ∧ (last_member "error" kvs = Some (JBool false)
            ∨ last_member "error" kvs = Some JNull)
         ∧ ("amount" ∉ kvs.*1 → length [mk_Joke "" "" ∅ 0 "x" "" false "" ""] = 1).
Proof.
  apply (ParseResponse_success spare_half). reflexivity.
Defined.

(** X3. When the last [error] member of an object is neither a boolean
    nor [null], [ParseResponse] returns the type error of decoding that
    member into a [bool], and no jokes, whatever else the object holds. *)
Theorem ParseResponse_error_member_not_boolean (spare : gotype → nat → nat)
    (kvs : list (string * json)) (v : json) :
  last_member "error" kvs = Some v →
  v ≠ JNull →
  (∀ b, v ≠ JBool b) →
  ParseResponse spare (JObject kvs)
  = ([], Some (UnmarshalTypeError (kind_of v) T_bool)).
Proof.
  intros Hv Hnull Hbool. rewrite ParseResponse_object, Hv.
  destruct v; try reflexivity; [by destruct Hnull | by destruct (Hbool b)].
Qed.

Lemma ParseResponse_error_member_not_boolean_witness :
  ParseResponse spare_half
    (JObject [("error", JString "false"); ("joke", JString "x")])
  = ([], Some (UnmarshalTypeError KString T_bool)).
Proof.
  apply (ParseResponse_error_member_not_boolean spare_half _ (JString "false"));
    [reflexivity | discriminate | discriminate].
Defined.

(** ** ParseResponse: what the members of the payload contribute *)

Lemma object_struct_drop {F T} (fields : list (string * F))
    (set : F → json → T → result T) (pre post : list (string * json))
    (k : string) (v : json) (t : T) :
  find_field fields k = None →
  object_struct fields set (pre ++ (k, v) :: post) t
  = object_struct fields set (pre ++ post) t.
Proof.
  intros Hk. revert t. induction pre as [|[k' v'] pre IH]; intros t; simpl.
  - by rewrite Hk.
  - destruct (find_field fields k') as [f|]; [|apply IH].
    destruct (set f v' t) as [t'|e]; simpl; [apply IH | reflexivity].
Qed.

Lemma names_no_field_spec (k : string) :
  names_no_field k = true →
  find_field Joke_fields k = None ∧ find_field Jokes_fields k = None
  ∧ find_field ErrorResponse_fields k = None.
Proof.
  unfold names_no_field.
  destruct (find_field Joke_fields k), (find_field Jokes_fields k),
    (find_field ErrorResponse_fields k); by try discriminate.
Qed.

(** A member whose key names no field leaves the three decoders as they
    are without it. *)
Lemma decoders_drop_member (spare : gotype → nat → nat)
    (pre post : list (string * json)) (k : string) (v : json) :
  names_no_field k = true →
  Unmarshal_Joke (JObject (pre ++ (k, v) :: post)) zero_Joke
  = Unmarshal_Joke (JObject (pre ++ post)) zero_Joke
  ∧ Unmarshal_Jokes spare (JObject (pre ++ (k, v) :: post)) zero_Jokes
    = Unmarshal_Jokes spare (JObject (pre ++ post)) zero_Jokes
  ∧ Unmarshal_ErrorResponse spare (JObject (pre ++ (k, v) :: post)) zero_ErrorResponse
    = Unmarshal_ErrorResponse spare (JObject (pre ++ post)) zero_ErrorResponse.
Proof.
  intros (HJ & HJs & HE)%names_no_field_spec.
  unfold Unmarshal_Joke, value_Joke, Unmarshal_Jokes, Unmarshal_ErrorResponse,
    value_struct.
  by rewrite !object_struct_drop.
Qed.

Lemma last_member_insert (key : string) (pre post : list (string * json))
    (k : string) (v : json) :
  last_member key (pre ++ (k, v) :: post)
  = match last_member key post with
    | Some x => Some x
    | None => if String.eqb k key then Some v else last_member key pre
    end.
Proof.
  rewrite last_member_app. cbn [last_member].
  destruct (last_member key post); [reflexivity|].
  by destruct (String.eqb k key).
Qed.

(** The value of a member that names no field matters only where the
    member is the discriminator [error]. *)
Lemma ParseResponse_replace_member (spare : gotype → nat → nat)
    (pre post : list (string * json)) (k : string) (v v' : json) :
  names_no_field k = true →
  (k = "error" → Unmarshal_bool v false = Unmarshal_bool v' false) →
  ParseResponse spare (JObject (pre ++ (k, v) :: post))
  = ParseResponse spare (JObject (pre ++ (k, v') :: post)).
Proof.
  intros Hk Herr. rewrite !ParseResponse_object, !last_member_insert.
  destruct (decoders_drop_member spare pre post k v Hk) as (-> & -> & ->).
  destruct (decoders_drop_member spare pre post k v' Hk) as (-> & -> & ->).
  assert (Hamount :
    ∀ (A : Type) (a b : A),
      match (match last_member "amount" post with
             | Some x => Some x
             | None => if String.eqb k "amount" then Some v
                       else last_member "amount" pre
             end) with Some _ => a | None => b end
      = match (match last_member "amount" post with
               | Some x => Some x
               | None => if String.eqb k "amount" then Some v'
                         else last_member "amount" pre
               end) with Some _ => a | None => b end).
  { intros A a b. destruct (last_member "amount" post); [reflexivity|].
    by destruct (String.eqb k "amount"). }
  destruct (last_member "error" post) as [err|].
  - destruct (Unmarshal_bool err false) as [[]|]; [reflexivity| |reflexivity].
    apply Hamount.
  - destruct (String.eqb_spec k "error") as [->|Hne].
    + rewrite (Herr eq_refl).
      destruct (Unmarshal_bool v' false) as [[]|]; [reflexivity| |reflexivity].
      apply Hamount.
    + destruct (last_member "error" pre) as [err|]; [|reflexivity].
      destruct (Unmarshal_bool err false) as [[]|]; [reflexivity| |reflexivity].
      apply Hamount.
Qed.

Lemma ParseResponse_drop_member (spare : gotype → nat → nat)
    (pre post : list (string * json)) (k : string) (v : json) :
  names_no_field k = true → k ≠ "error" → k ≠ "amount" →
  ParseResponse spare (JObject (pre ++ (k, v) :: post))
  = ParseResponse spare (JObject (pre ++ post)).
Proof.
  intros Hk He Ha. rewrite !ParseResponse_object, !last_member_insert.
  destruct (decoders_drop_member spare pre post k v Hk) as (-> & -> & ->).
  rewrite !last_member_app.
  apply String.eqb_neq in He, Ha. by rewrite He, Ha.
Qed.

(** X4. [ParseResponse] never reads the value of the [amount] member: the
    result is the same whatever value the member holds (its presence alone
    selects the list payload, and the number of jokes returned is not
    compared with it). *)
Theorem ParseResponse_ignores_amount_value (spare : gotype → nat → nat)
    (pre post : list (string * json)) (v v' : json) :
  ParseResponse spare (JObject (pre ++ ("amount", v) :: post))
  = ParseResponse spare (JObject (pre ++ ("amount", v') :: post)).
Proof. by apply ParseResponse_replace_member. Qed.

(** X5. A member whose key names no field of [Joke], [Jokes] or
    [ErrorResponse] (up to case) and is neither [error] nor [amount] is
    ignored: the result is that of the payload without it. *)
Theorem ParseResponse_ignores_unknown_member (spare : gotype → nat → nat)
    (pre post : list (string * json)) (k : string) (v : json) :
  names_no_field k = true → k ≠ "error" → k ≠ "amount" →
  ParseResponse spare (JObject (pre ++ (k, v) :: post))
  = ParseResponse spare (JObject (pre ++ post)).
Proof. apply ParseResponse_drop_member. Qed.

Lemma ParseResponse_ignores_unknown_member_witness :
  ParseResponse spare_half
    (JObject ([("error", JBool false)]
              ++ ("formatVersion", JNumber (Integer 3)) :: [("joke", JString "x")]))
  = ParseResponse spare_half
      (JObject ([("error", JBool false)] ++ [("joke", JString "x")])).
Proof.
  apply ParseResponse_ignores_unknown_member; [reflexivity | discriminate..].
Defined.

(** X6. An [error] member that is [null] counts as [false]: the result is
    the same as with [false] in its place. *)
Theorem ParseResponse_null_error_is_false (spare : gotype → nat → nat)
    (pre post : list (string * json)) :
  ParseResponse spare (JObject (pre ++ ("error", JNull) :: post))
  = ParseResponse spare (JObject (pre ++ ("error", JBool false) :: post)).
Proof. by apply ParseResponse_replace_member. Qed.

(** X7. A list payload with no member that names the field [jokes] gives
    the empty sequence and no error: when the last [error] member is
    [false] or [null], an [amount] member is present and no key is [jokes]
    up to case, [ParseResponse] returns no joke and a nil error. *)
Theorem ParseResponse_list_without_jokes (spare : gotype → nat → nat)
    (kvs : list (string * json)) :
  (last_member "error" kvs = Some (JBool false)
   ∨ last_member "error" kvs = Some JNull) →
  "amount" ∈ kvs.*1 →
  Forall (λ kv, find_field Jokes_fields (fst kv) = None) kvs →
  ParseResponse spare (JObject kvs) = ([], None).
Proof.
  intros Herr Hamount Hnone. rewrite ParseResponse_object.
  assert (Ha : ∃ a, last_member "amount" kvs = Some a).
  { destruct (last_member "amount" kvs) eqn:E; [by eexists|].
    by apply last_member_None in E. }
  destruct Ha as [a ->].
  unfold Unmarshal_Jokes, value_struct.
  rewrite object_struct_skip_all by done.
  by destruct Herr as [-> | ->].
Qed.

Lemma ParseResponse_list_without_jokes_witness :
  ParseResponse spare_half
    (JObject [("error", JBool false); ("amount", JNumber (Integer 3))])
  = ([], None).
Proof.
  apply ParseResponse_list_without_jokes.
  - by left.
  - cbn. apply elem_of_cons. right. apply elem_of_cons. by left.
  - by repeat constructor.
Defined.

(** ** The fields of a decoded joke *)

Lemma set_Joke_field_scalars (k : string) (f : Joke_field) (v : json) (j j' : Joke) :
  find_field Joke_fields k = Some f →
  set_Joke_field f v j = Ok j' →
  Joke_scalars_of [(k, v)] j j'.
Proof.
  intros Hk. unfold Joke_scalars_of. cbn [string_member int_member bool_member].
  rewrite Hk. destruct j as [category delivery flags id joke lang safe setup type].
  destruct f; cbn [set_Joke_field];
    intros (x & Hx & [= <-])%bind_Ok;
    cbn [Joke_Category Joke_Delivery Joke_Id Joke_Joke Joke_Lang Joke_Safe
         Joke_Setup Joke_Type is_F_category is_F_delivery is_F_id is_F_joke
         is_F_lang is_F_safe is_F_setup is_F_type];
    destruct v as [|b|[z|t]|s|vs|kvs]; cbn in Hx; try discriminate Hx;
    try (injection Hx as <-);
    try (repeat (split; [reflexivity|]); reflexivity).
  destruct (in_int64 z); [|discriminate Hx]. injection Hx as <-.
  repeat (split; [reflexivity|]); reflexivity.
Qed.

Lemma Joke_scalars_of_skip (k : string) (v : json) (j : Joke) :
  find_field Joke_fields k = None → Joke_scalars_of [(k, v)] j j.
Proof.
  intros Hk. unfold Joke_scalars_of. cbn [string_member int_member bool_member].
  rewrite Hk. repeat (split; [reflexivity|]); reflexivity.
Qed.

Lemma Joke_scalars_of_cons (k : string) (v : json) (kvs : list (string * json))
    (j0 j1 j2 : Joke) :
  Joke_scalars_of [(k, v)] j0 j1 → Joke_scalars_of kvs j1 j2 →
  Joke_scalars_of ((k, v) :: kvs) j0 j2.
Proof.
  unfold Joke_scalars_of.
  intros (A1 & A2 & A3 & A4 & A5 & A6 & A7 & A8) (B1 & B2 & B3 & B4 & B5 & B6 & B7 & B8).
  rewrite B1, B2, B3, B4, B5, B6, B7, B8, A1, A2, A3, A4, A5, A6, A7, A8.
  repeat (split; [reflexivity|]); reflexivity.
Qed.

Lemma object_Joke_scalars (kvs : list (string * json)) (old j : Joke) :
  object_struct Joke_fields set_Joke_field kvs old = Ok j →
  Joke_scalars_of kvs old j.
Proof.
  revert old. induction kvs as [|[k v] kvs IH]; intros old.
  - simpl. intros [= <-]. unfold Joke_scalars_of.
    repeat (split; [reflexivity|]); reflexivity.
  - cbn [object_struct]. destruct (find_field Joke_fields k) as [f|] eqn:Hk.
    + intros (j1 & Hset & Hrest)%bind_Ok.
      eapply Joke_scalars_of_cons; [|by apply IH].
      by eapply set_Joke_field_scalars.
    + intros Hrest. eapply Joke_scalars_of_cons; [|by apply IH].
      by apply Joke_scalars_of_skip.
Qed.

(** A single-joke payload that parses without error. *)
Lemma ParseResponse_single_decoded (spare : gotype → nat → nat)
    (kvs : list (string * json)) (jokes : list Joke) :
  "amount" ∉ kvs.*1 →
  ParseResponse spare (JObject kvs) = (jokes, None) →
  ∃ j, jokes = [j] ∧ Unmarshal_Joke (JObject kvs) zero_Joke = Ok j.
Proof.
  intros Hno%last_member_None. rewrite ParseResponse_object, Hno.
  destruct (last_member "error" kvs) as [err|]; [|discriminate].
  destruct (Unmarshal_bool err false) as [[]|]; [|  |discriminate].
  - destruct (Unmarshal_ErrorResponse spare (JObject kvs) zero_ErrorResponse);
      discriminate.
  - destruct (Unmarshal_Joke (JObject kvs) zero_Joke) as [j|]; [|discriminate].
    intros [= <-]. by exists j.
Qed.

(** X8. The joke of a single-joke payload holds in each scalar field what
    the last member naming the field (up to case) holds, [null] members
    aside, and the zero value where there is none; the strings of
    [category], [lang] and [type] are taken as they are, whether or not
    they belong to the vocabularies of the setters. *)
Theorem ParseResponse_single_joke_fields (spare : gotype → nat → nat)
    (kvs : list (string * json)) (jokes : list Joke) :
  "amount" ∉ kvs.*1 →
  ParseResponse spare (JObject kvs) = (jokes, None) →
  ∃ j, jokes = [j]
    ∧ Joke_Category j = string_member Joke_fields is_F_category kvs ""
    ∧ Joke_Delivery j = string_member Joke_fields is_F_delivery kvs ""
    ∧ Joke_Id j = int_member Joke_fields is_F_id kvs 0
    ∧ Joke_Joke j = string_member Joke_fields is_F_joke kvs ""
    ∧ Joke_Lang j = string_member Joke_fields is_F_lang kvs ""
    ∧ Joke_Safe j = bool_member Joke_fields is_F_safe kvs false
    ∧ Joke_Setup j = string_member Joke_fields is_F_setup kvs ""
    ∧ Joke_Type j = string_member Joke_fields is_F_type kvs "".
Proof.
  intros Hno H.
  destruct (ParseResponse_single_decoded spare kvs jokes Hno H) as (j & -> & Hj).
  exists j. split; [reflexivity|]. by apply object_Joke_scalars in Hj.
Qed.

Lemma ParseResponse_single_joke_fields_witness :
  ∃ j, [mk_Joke "Klingon" "" ∅ 7 "x" "tlh" true "" "limerick"] = [j]
    ∧ Joke_Category j = "Klingon"
    ∧ Joke_Delivery j = ""
    ∧ Joke_Id j = 7%Z
    ∧ Joke_Joke j = "x"
    ∧ Joke_Lang j = "tlh"
    ∧ Joke_Safe j = true
    ∧ Joke_Setup j = ""
    ∧ Joke_Type j = "limerick".
Proof.
  apply (ParseResponse_single_joke_fields spare_half
    [("error", JBool false); ("category", JString "Klingon");
     ("TYPE", JString "limerick"); ("joke", JString "y"); ("joke", JString "x");
     ("lang", JString "tlh"); ("id", JNumber (Integer 7)); ("id", JNull);
     ("safe", JBool true)]).
  - cbn. rewrite !not_elem_of_cons.
    repeat split; (discriminate || apply not_elem_of_nil).
  - reflexivity.
Defined.

(** X9. The text [Joke.String] gives for the joke of a single-joke
    payload, read off the payload: the [setup], a line feed and the
    [delivery] when the last string under [type] is exactly [twopart], and
    the text under [joke] otherwise (also for an unknown or a missing
    type). *)
Theorem Joke_String_of_payload (spare : gotype → nat → nat)
    (kvs : list (string * json)) (jokes : list Joke) :
  "amount" ∉ kvs.*1 →
  ParseResponse spare (JObject kvs) = (jokes, None) →
  Joke_String <$> jokes
  = [ if String.eqb (string_member Joke_fields is_F_type kvs "") "twopart"
      then string_member Joke_fields is_F_setup kvs "" +:+ LF
           +:+ string_member Joke_fields is_F_delivery kvs ""
      else string_member Joke_fields is_F_joke kvs "" ].
Proof.
  intros Hno H.
  destruct (ParseResponse_single_decoded spare kvs jokes Hno H) as (j & -> & Hj).
  apply object_Joke_scalars in Hj as (_ & HD & _ & HJ & _ & _ & HS & HT).
  cbn [fmap list_fmap]. unfold Joke_String, Twopart, LF.
  rewrite HD, HJ, HS, HT. reflexivity.
Qed.

Lemma Joke_String_of_payload_witness :
  Joke_String <$> [mk_Joke "" "d" ∅ 0 "" "" false "s" "twopart"]
  = [ "s" +:+ LF +:+ "d" ].
Proof.
  apply (Joke_String_of_payload spare_half
    [("error", JBool false); ("type", JString "twopart");
     ("setup", JString "s"); ("delivery", JString "d")]).
  - cbn. rewrite !not_elem_of_cons.
    repeat split; (discriminate || apply not_elem_of_nil).
  - reflexivity.
Defined.

(** ** The encoded query of a request *)

Lemma is_empty_string_app_r (a b : string) :
  is_empty_string b = false → is_empty_string (a +:+ b) = false.
Proof. destruct a; [done|reflexivity]. Qed.

Lemma foldl_Encode_add (keyEscaped : string) (vals : list string) (buf : string) :
  foldl (Encode_add keyEscaped) buf vals
  = foldl Encode_step buf ((λ val, keyEscaped +:+ "=" +:+ QueryEscape val) <$> vals).
Proof.
  revert buf. induction vals as [|val vals IH]; intros buf; [reflexivity|].
  cbn [foldl fmap list_fmap]. by rewrite IH.
Qed.

Lemma foldl_Encode_keys (v : gmap string (list string)) (keys : list string)
    (buf : string) :
  foldl (λ buf k, foldl (Encode_add (QueryEscape k)) buf (default [] (v !! k))) buf keys
  = foldl Encode_step buf (Values_pairs v keys).
Proof.
  revert buf. induction keys as [|k keys IH]; intros buf; [reflexivity|].
  cbn [foldl]. unfold Values_pairs. cbn [flat_map].
  rewrite foldl_app, IH, foldl_Encode_add. reflexivity.
Qed.

Lemma concat_cons_cons (sep a b : string) (l : list string) :
  String.concat sep (a :: b :: l) = a +:+ sep +:+ String.concat sep (b :: l).
Proof. reflexivity. Qed.

(** Adding pairs one by one joins them with [&]. *)
Lemma foldl_Encode_step (l : list string) :
  Forall (λ p, is_empty_string p = false) l →
  ∀ buf,
    foldl Encode_step buf l
    = match l with
      | [] => buf
      | _ => if is_empty_string buf then String.concat "&" l
             else buf +:+ "&" +:+ String.concat "&" l
      end.
Proof.
  induction 1 as [|p l Hp Hl IH]; intros buf; [reflexivity|].
  cbn [foldl]. rewrite IH.
  assert (Hstep : is_empty_string (Encode_step buf p) = false).
  { unfold Encode_step. by apply is_empty_string_app_r. }
  destruct l as [|q l].
  - unfold Encode_step. destruct buf; [reflexivity|].
    cbn [is_empty_string String.concat]. by rewrite append_assoc.
  - rewrite Hstep, concat_cons_cons. unfold Encode_step.
    destruct buf; [reflexivity|].
    cbn [is_empty_string]. by rewrite !append_assoc.
Qed.

Lemma Values_pairs_nonempty (v : gmap string (list string)) (keys : list string) :
  Forall (λ p, is_empty_string p = false) (Values_pairs v keys).
Proof.
  unfold Values_pairs. induction keys as [|k keys IH]; [constructor|].
  cbn [flat_map]. apply Forall_app. split; [|exact IH].
  apply Forall_fmap, Forall_true. intros val. cbn.
  by apply is_empty_string_app_r.
Qed.

(** [Values.Encode] joins the pairs of the sorted keys with [&]. *)
Lemma Values_Encode_concat (v : gmap string (list string)) :
  Values_Encode v = String.concat "&" (Values_pairs v (sorted_keys v)).
Proof.
  unfold Values_Encode. rewrite foldl_Encode_keys, foldl_Encode_step
    by apply Values_pairs_nonempty.
  by destruct (Values_pairs v (sorted_keys v)).
Qed.

Ltac eval_sorted_keys :=
  match goal with
  | |- context [sorted_keys ?m] =>
      let l := eval vm_compute in (sorted_keys m) in
      replace (sorted_keys m) with l by (vm_compute; reflexivity)
  end.

Ltac eval_lookups :=
  repeat match goal with
  | |- context [@lookup string (list string) _ _ ?k ?m] =>
      let r := eval vm_compute in (m !! k) in
      replace (m !! k) with r by (vm_compute; reflexivity)
  end.

Lemma QueryEscape_keys :
  QueryEscape "amount" = "amount" ∧ QueryEscape "blacklistFlags" = "blacklistFlags"
  ∧ QueryEscape "contains" = "contains" ∧ QueryEscape "idRange" = "idRange"
  ∧ QueryEscape "lang" = "lang" ∧ QueryEscape "safe-mode" = "safe-mode"
  ∧ QueryEscape "type" = "type" ∧ QueryEscape "" = "".
Proof. vm_compute. repeat (split; [reflexivity|]); reflexivity. Qed.

(** The pairs of the query of a request, and their number. *)
Lemma Request_Query_pairs (j : Request) :
  Values_pairs (Request_Query j) (sorted_keys (Request_Query j)) = query_pairs j
  ∧ size (Request_Query j) = length (query_pairs j).
Proof.
  destruct QueryEscape_keys as (E1 & E2 & E3 & E4 & E5 & E6 & E7 & E8).
  destruct j as [amount blacklist category contains id lang safe type].
  unfold Request_Query, query_pairs.
  cbn [Amount Blacklist Category Contains ID Lang Safe Type_].
  generalize (Sprintf_d amount) (Flags_String blacklist). intros a b.
  destruct (0 <? amount)%Z, (0 <? length blacklist)%nat,
    (negb (is_empty_string contains)), id as [r|],
    (negb (is_empty_string lang)), safe, (negb (is_empty_string type));
    try (generalize (IDRange_String r); intros c);
    (split; [|vm_compute; reflexivity]);
    eval_sorted_keys; unfold Values_pairs; cbn [flat_map]; eval_lookups;
    cbn [default fmap list_fmap app];
    rewrite ?E1, ?E2, ?E3, ?E4, ?E5, ?E6, ?E7, ?E8; reflexivity.
Qed.

(** X10. The encoded query of a request is the list of the pairs
    [key=value] of its set fields, in the fixed order [amount],
    [blacklistFlags], [contains], [idRange], [lang], [safe-mode], [type],
    joined by [&], every value query-escaped. *)
Theorem Query_Encode_is_pairs_in_key_order (j : Request) :
  Values_Encode (Request_Query j) = String.concat "&" (query_pairs j).
Proof.
  rewrite Values_Encode_concat. by destruct (Request_Query_pairs j) as [-> _].
Qed.

(** ** The separators of the query and of the URL *)

Lemma count_byte_app (c : ascii) (a b : string) :
  count_byte c (a +:+ b) = count_byte c a + count_byte c b.
Proof.
  induction a as [|x a IH]; [reflexivity|].
  rewrite append_cons. cbn [count_byte]. rewrite IH. lia.
Qed.

Lemma all_bytes_app (p : ascii → bool) (a b : string) :
  all_bytes p (a +:+ b) = all_bytes p a && all_bytes p b.
Proof.
  induction a as [|x a IH]; [reflexivity|].
  rewrite append_cons. cbn [all_bytes]. rewrite IH. by rewrite andb_assoc.
Qed.

(** What escaping turns one byte into, in a query component and in a path. *)
Lemma escape_byte_bytes (c : ascii) :
  (count_byte "=" (escape_byte c encodeQueryComponent) = 0
   ∧ count_byte "&" (escape_byte c encodeQueryComponent) = 0
   ∧ count_byte "?" (escape_byte c encodeQueryComponent) = 0
   ∧ all_bytes url_byte (escape_byte c encodeQueryComponent) = true)
  ∧ count_byte "?" (escape_byte c encodePath) = 0
  ∧ all_bytes url_byte (escape_byte c encodePath) = true.
Proof.
  destruct c as [[] [] [] [] [] [] [] []]; vm_compute; repeat split.
Qed.

Lemma QueryEscape_bytes (s : string) :
  count_byte "=" (QueryEscape s) = 0 ∧ count_byte "&" (QueryEscape s) = 0
  ∧ count_byte "?" (QueryEscape s) = 0 ∧ all_bytes url_byte (QueryEscape s) = true.
Proof.
  unfold QueryEscape. induction s as [|c s (IH1 & IH2 & IH3 & IH4)];
    [by repeat split|].
  destruct (escape_byte_bytes c) as [(H1 & H2 & H3 & H4) _].
  cbn [escape]. rewrite !count_byte_app, all_bytes_app, H1, H2, H3, H4,
    IH1, IH2, IH3, IH4. by repeat split.
Qed.

Lemma escape_path_bytes (s : string) :
  count_byte "?" (escape s encodePath) = 0
  ∧ all_bytes url_byte (escape s encodePath) = true.
Proof.
  induction s as [|c s (IH1 & IH2)]; [by split|].
  destruct (escape_byte_bytes c) as (_ & H1 & H2).
  cbn [escape]. rewrite count_byte_app, all_bytes_app, H1, H2, IH1, IH2.
  by split.
Qed.

(** Every pair of the query holds one [=], which is its only separator. *)
Lemma query_pairs_bytes (j : Request) :
  Forall (λ p, (count_byte "=" p = 1 ∧ count_byte "&" p = 0)
               ∧ count_byte "?" p = 0 ∧ all_bytes url_byte p = true)
         (query_pairs j).
Proof.
  assert (H : ∀ key val,
    count_byte "=" key = 0 → count_byte "&" key = 0 → count_byte "?" key = 0 →
    all_bytes url_byte key = true →
    (count_byte "=" (key +:+ "=" +:+ QueryEscape val) = 1
     ∧ count_byte "&" (key +:+ "=" +:+ QueryEscape val) = 0)
    ∧ count_byte "?" (key +:+ "=" +:+ QueryEscape val) = 0
    ∧ all_bytes url_byte (key +:+ "=" +:+ QueryEscape val) = true).
  { intros key val K1 K2 K3 K4.
    destruct (QueryEscape_bytes val) as (H1 & H2 & H3 & H4).
    rewrite !count_byte_app, !all_bytes_app, K1, K2, K3, K4, H1, H2, H3, H4.
    by repeat split. }
  unfold query_pairs. repeat (apply Forall_app; split).
  - destruct (0 <? Amount j)%Z; [|constructor].
    apply Forall_singleton, (H "amount"); reflexivity.
  - destruct (0 <? length (Blacklist j))%nat; [|constructor].
    apply Forall_singleton, (H "blacklistFlags"); reflexivity.
  - destruct (negb (is_empty_string (Contains j))); [|constructor].
    apply Forall_singleton, (H "contains"); reflexivity.
  - destruct (ID j); [|constructor].
    apply Forall_singleton, (H "idRange"); reflexivity.
  - destruct (negb (is_empty_string (Lang j))); [|constructor].
    apply Forall_singleton, (H "lang"); reflexivity.
  - destruct (Safe j); [|constructor].
    apply Forall_singleton. by repeat split.
  - destruct (negb (is_empty_string (Type_ j))); [|constructor].
    apply Forall_singleton, (H "type"); reflexivity.
Qed.

(** The bytes of a join, from those of its members. *)
Lemma count_byte_concat (c : ascii) (sep : string) (n : nat) (l : list string) :
  Forall (λ p, count_byte c p = n) l →
  count_byte c (String.concat sep l)
  = n * length l + count_byte c sep * (length l - 1).
Proof.
  induction 1 as [|p l Hp Hl IH];
    [cbn [String.concat count_byte length Nat.sub]; lia|].
  destruct l as [|q l]; [clear IH; cbn [String.concat length Nat.sub]; lia|].
  rewrite concat_cons_cons, !count_byte_app, IH, Hp. cbn [length].
  replace (S (length l) - 1) with (length l) by lia.
  replace (S (S (length l)) - 1) with (S (length l)) by lia. lia.
Qed.

Lemma all_bytes_concat (p : ascii → bool) (sep : string) (l : list string) :
  all_bytes p sep = true →
  Forall (λ s, all_bytes p s = true) l →
  all_bytes p (String.concat sep l) = true.
Proof.
  intros Hsep. induction 1 as [|s l Hs Hl IH]; [reflexivity|].
  destruct l as [|q l]; [exact Hs|].
  by rewrite concat_cons_cons, !all_bytes_app, Hs, Hsep, IH.
Qed.

(** X11. No value of a request can add a separator to its query: the
    encoded query holds exactly one [=] for each set field and one [&]
    between two consecutive pairs, whatever bytes the text of [Contains]
    and the other values hold. *)
Theorem Query_Encode_separators (j : Request) :
  count_byte "=" (Values_Encode (Request_Query j)) = size (Request_Query j)
  ∧ count_byte "&" (Values_Encode (Request_Query j)) = size (Request_Query j) - 1.
Proof.
  rewrite Values_Encode_concat.
  destruct (Request_Query_pairs j) as [-> ->].
  pose proof (query_pairs_bytes j) as H.
  rewrite (count_byte_concat "=" "&" 1), (count_byte_concat "&" "&" 0).
  - change (count_byte "=" "&") with 0. change (count_byte "&" "&") with 1.
    split; lia.
  - eapply Forall_impl; [exact H|]. by intros p [[_ ?] _].
  - eapply Forall_impl; [exact H|]. by intros p [[? _] _].
Qed.

(** X12. Whatever strings the fields of a request hold, its URL is made of
    unreserved and reserved URL bytes and percent signs only (no space, no
    control or non-ASCII byte, no quote, no fragment sign), and it holds a
    question mark exactly when the query has a key: one, before the
    query. *)
Theorem URL_bytes_and_query_mark (j : Request) :
  all_bytes url_byte (Request_URL j) = true
  ∧ count_byte "?" (Request_URL j) = (if decide (size (Request_Query j) = 0) then 0 else 1).
Proof.
  rewrite Request_URL_unfold, Values_Encode_concat.
  destruct (Request_Query_pairs j) as [-> ->].
  pose proof (query_pairs_bytes j) as H.
  destruct (escape_path_bytes ("joke/" +:+ String.concat "," (requested_categories j)))
    as [P1 P2].
  assert (Q1 : count_byte "?" (String.concat "&" (query_pairs j)) = 0).
  { rewrite (count_byte_concat "?" "&" 0); [reflexivity|].
    eapply Forall_impl; [exact H|]. by intros p (_ & ? & _). }
  assert (Q2 : all_bytes url_byte (String.concat "&" (query_pairs j)) = true).
  { apply all_bytes_concat; [reflexivity|].
    eapply Forall_impl; [exact H|]. by intros p (_ & _ & ?). }
  rewrite !count_byte_app, !all_bytes_app, P1, P2.
  unfold query_suffix.
  destruct (query_pairs j) as [|p l] eqn:E.
  - by split.
  - assert (Hne : is_empty_string (String.concat "&" (p :: l)) = false).
    { apply Forall_cons in H as [[[Hp _] _] _].
      destruct l; [by destruct p|]. rewrite concat_cons_cons. by destruct p. }
    rewrite Hne, count_byte_app, all_bytes_app, Q1, Q2. by split.
Qed.

(** ** Sequences of setter calls *)

(** X13. What a sequence of setter calls leaves, whether or not the caller
    looks at the errors: [Add] called on each string of a sequence in turn
    extends the collection by exactly the strings of the sequence that are
    in the vocabulary, in call order and with their repetitions; [Set]
    leaves the last string of the sequence that is in the vocabulary, and
    the value held before when there is none. *)
Theorem setter_sequences (isPrintWide : N → bool) (raws : list string) :
  (∀ s, foldl (λ s f, fst (Flags_Add isPrintWide s f)) s raws
        = (s ++ filter (.∈ BlacklistFlags) raws)%list)
  ∧ (∀ s, foldl (λ s c, fst (Categories_Add isPrintWide s c)) s raws
          = (s ++ filter (.∈ CategoryNames) raws)%list)
  ∧ (∀ s, foldl (λ s l, fst (Lang_Set isPrintWide s l)) s raws
          = default s (last (filter (.∈ Languages) raws)))
  ∧ (∀ s, foldl (λ s t, fst (Type_Set isPrintWide s t)) s raws
          = default s (last (filter (.∈ JokeTypes) raws))).
Proof.
  repeat split; induction raws as [|x raws IH]; intros s;
    try (cbn [foldl filter]; by rewrite ?app_nil_r);
    cbn [foldl]; rewrite IH, filter_cons.
  - unfold Flags_Add. fold BlacklistFlags.
    destruct (switch_case x BlacklistFlags) eqn:E.
    + apply switch_case_elem_of in E. rewrite decide_True by done.
      cbn [fst]. by rewrite <- app_assoc.
    + apply switch_case_not_elem_of in E. by rewrite decide_False by done.
  - unfold Categories_Add. fold CategoryNames.
    destruct (switch_case x CategoryNames) eqn:E.
    + apply switch_case_elem_of in E. rewrite decide_True by done.
      cbn [fst]. by rewrite <- app_assoc.
    + apply switch_case_not_elem_of in E. by rewrite decide_False by done.
  - unfold Lang_Set. fold Languages.
    destruct (switch_case x Languages) eqn:E.
    + apply switch_case_elem_of in E. rewrite decide_True by done.
      cbn [fst]. rewrite last_cons. by destruct (last _).
    + apply switch_case_not_elem_of in E. by rewrite decide_False by done.
  - unfold Type_Set. fold JokeTypes.
    destruct (switch_case x JokeTypes) eqn:E.
    + apply switch_case_elem_of in E. rewrite decide_True by done.
      cbn [fst]. rewrite last_cons. by destruct (last _).
    + apply switch_case_not_elem_of in E. by rewrite decide_False by done.
Qed.

(** ** Renderings that lose nothing *)

(** A string is split in one way at the first occurrence of a byte. *)
Lemma split_at_byte (c : ascii) (a b x y : string) :
  count_byte c a = 0 → count_byte c b = 0 →
  a +:+ String c x = b +:+ String c y → a = b ∧ x = y.
Proof.
  revert b. induction a as [|u a IH]; intros [|v b]; cbn [count_byte].
  - intros _ _ [= ->]. done.
  - intros _ Hb [= <- _]. rewrite Ascii.eqb_refl in Hb. discriminate.
  - intros Ha _ [= -> _]. rewrite Ascii.eqb_refl in Ha. discriminate.
  - intros Ha Hb. rewrite !append_cons. intros [= -> H].
    destruct (IH b) as [-> ->]; [lia | lia | exact H | done].
Qed.

Lemma count_byte_sep (c : ascii) (a x : string) :
  count_byte c (a +:+ String c "" +:+ x) = S (count_byte c a + count_byte c x).
Proof.
  rewrite count_byte_app. change (String c "" +:+ x) with (String c x).
  cbn [count_byte]. rewrite Ascii.eqb_refl. lia.
Qed.

Lemma token_ok_spec (t : string) :
  token_ok t = true ↔ is_empty_string t = false ∧ count_byte "," t = 0.
Proof.
  unfold token_ok. rewrite andb_true_iff, negb_true_iff, Nat.eqb_eq. done.
Qed.

(** The comma join of non-empty tokens without a comma gives the tokens
    back. *)
Lemma concat_comma_inj (s s' : list string) :
  Forall (λ t, token_ok t = true) s → Forall (λ t, token_ok t = true) s' →
  String.concat "," s = String.concat "," s' → s = s'.
Proof.
  intros Hs. revert s'. induction Hs as [|a s Ha Hs IH]; intros s' Hs' E.
  - destruct Hs' as [|b s' Hb Hs']; [done|].
    apply token_ok_spec in Hb as [Hb _].
    destruct s'; [|rewrite concat_cons_cons in E]; by destruct b.
  - apply token_ok_spec in Ha as [Ha Ca].
    destruct Hs' as [|b s' Hb Hs'].
    { destruct s; [|rewrite concat_cons_cons in E]; by destruct a. }
    apply token_ok_spec in Hb as [Hb Cb].
    destruct s as [|p s], s' as [|q s'].
    + cbn [String.concat] in E. by subst.
    + rewrite concat_cons_cons in E. cbn [String.concat] in E.
      rewrite E, count_byte_sep in Ca. lia.
    + rewrite concat_cons_cons in E. cbn [String.concat] in E.
      rewrite <- E, count_byte_sep in Cb. lia.
    + rewrite !concat_cons_cons in E.
      change ("," +:+ ?x) with (String "," x) in E.
      apply split_at_byte in E as [-> E]; [|done..].
      f_equal. by apply IH.
Qed.

Lemma vocabulary_token_ok :
  Forall (λ t, token_ok t = true) (BlacklistFlags ++ CategoryNames).
Proof. repeat constructor. Qed.

(** X14. The comma-joined rendering of a blacklist or of a category list
    loses nothing: two lists of non-empty tokens without a comma (every
    token of the two vocabularies is one) that render to the same string
    are the same list, in length, order and repetitions. *)
Theorem String_injective_on_tokens (s s' : list string) :
  Forall (λ t, token_ok t = true) s → Forall (λ t, token_ok t = true) s' →
  (Flags_String s = Flags_String s' → s = s')
  ∧ (Categories_String s = Categories_String s' → s = s').
Proof.
  intros Hs Hs'. split; intros E.
  - rewrite !Flags_String_concat in E. by apply concat_comma_inj.
  - rewrite !Categories_String_concat in E. by apply concat_comma_inj.
Qed.

Lemma String_injective_on_tokens_witness :
  (Flags_String [Nsfw; Racist] = Flags_String [Nsfw; Racist]
   → [Nsfw; Racist] = [Nsfw; Racist])
  ∧ (Categories_String [Nsfw; Racist] = Categories_String [Nsfw; Racist]
     → [Nsfw; Racist] = [Nsfw; Racist]).
Proof.
  apply (String_injective_on_tokens [Nsfw; Racist] [Nsfw; Racist]);
    repeat constructor.
Defined.

(** The digits of a number that is not negative hold no minus sign. *)
Lemma string_of_uint_no_minus (d : Decimal.uint) :
  count_byte "-" (NilEmpty.string_of_uint d) = 0.
Proof. induction d; cbn [NilEmpty.string_of_uint count_byte]; done. Qed.

Lemma Sprintf_d_no_minus (n : Z) : (0 ≤ n)%Z → count_byte "-" (Sprintf_d n) = 0.
Proof.
  intros Hn. unfold Sprintf_d. destruct n as [|p|p]; [reflexivity| |lia].
  cbn [Z.to_int NilZero.string_of_int NilZero.string_of_uint].
  pose proof (string_of_uint_no_minus (Pos.to_uint p)) as H.
  by destruct (Pos.to_uint p).
Qed.

Lemma Sprintf_d_inj (a b : Z) : Sprintf_d a = Sprintf_d b → a = b.
Proof.
  intros E. pose proof (Sprintf_d_decimal a) as Ha.
  rewrite E, Sprintf_d_decimal in Ha. by injection Ha.
Qed.

(** X15. The rendering of an ID range loses nothing on the ranges the API
    knows: two ranges whose bounds are not negative and that render to the
    same string have the same bounds. *)
Theorem IDRange_String_injective (r r' : IDRange) :
  (0 ≤ Lower r)%Z → (0 ≤ Upper r)%Z → (0 ≤ Lower r')%Z → (0 ≤ Upper r')%Z →
  IDRange_String r = IDRange_String r' → r = r'.
Proof.
  destruct r as [l u], r' as [l' u']. cbn [Lower Upper]. intros Hl Hu Hl' Hu'.
  unfold IDRange_String. cbn [Lower Upper].
  pose proof (Sprintf_d_no_minus l Hl) as Cl.
  pose proof (Sprintf_d_no_minus l' Hl') as Cl'.
  destruct (Z.ltb_spec 0 u), (Z.ltb_spec 0 u'); intros E.
  - change ("-" +:+ ?x) with (String "-" x) in E.
    apply split_at_byte in E as [->%Sprintf_d_inj ->%Sprintf_d_inj]; done.
  - rewrite <- E, count_byte_sep in Cl'. lia.
  - rewrite E, count_byte_sep in Cl. lia.
  - apply Sprintf_d_inj in E as ->. f_equal. lia.
Qed.

Lemma IDRange_String_injective_witness :
  {| Lower := 2; Upper := 32 |} = {| Lower := 2; Upper := 32 |}.
Proof.
  apply (IDRange_String_injective {| Lower := 2; Upper := 32 |}
           {| Lower := 2; Upper := 32 |}); cbn; (lia || reflexivity).
Defined.

(** ** The output of the command *)

Lemma main_print_loop_concat (jokes : list Joke) (i : Z) (out : string) :
  main_print_loop (i + Z.of_nat (length jokes)) i jokes out
  = out +:+ String.concat ("---" +:+ LF) ((λ j, Joke_String j +:+ LF) <$> jokes).
Proof.
  revert i out. induction jokes as [|j jokes IH]; intros i out.
  - cbn. by rewrite append_nil_r.
  - cbn [main_print_loop length fmap list_fmap].
    replace (i + Z.of_nat (S (length jokes)))%Z
      with (i + 1 + Z.of_nat (length jokes))%Z by lia.
    rewrite IH. destruct jokes as [|j' jokes].
    + cbn [length fmap list_fmap String.concat].
      rewrite (proj2 (Z.ltb_ge _ _)) by (cbn; lia).
      by rewrite append_nil_r.
    + rewrite (proj2 (Z.ltb_lt _ _)) by (cbn [length]; lia).
      cbn [fmap list_fmap]. rewrite concat_cons_cons. by rewrite !append_assoc.
Qed.

(** X16. What the command prints for the jokes it got: the text of each
    joke on a line of its own, and a line [---] between two consecutive
    jokes, none before the first and none after the last; nothing for no
    joke. *)
Theorem main_prints_jokes_with_separators (jokes : list Joke) :
  main_print jokes
  = String.concat ("---" +:+ LF) ((λ j, Joke_String j +:+ LF) <$> jokes).
Proof.
  unfold main_print.
  exact (main_print_loop_concat jokes 0 "").
Qed.

(** ** The flags of a decoded joke *)

Lemma object_map_bool_lookup (kvs : list (string * json)) (m m' : gmap string bool) :
  object_map_bool kvs m = Ok m' →
  ∀ name, m' !! name = match last_member name kvs with
                       | Some v => Some (flag_value v)
                       | None => m !! name
                       end.
Proof.
  revert m. induction kvs as [|[k v] kvs IH]; intros m.
  - by intros [= <-].
  - cbn [object_map_bool last_member]. intros (b & Hb & Hrest)%bind_Ok name.
    rewrite (IH _ Hrest name). destruct (last_member name kvs); [done|].
    assert (b = flag_value v) as ->.
    { destruct v; try discriminate Hb; by injection Hb. }
    destruct (String.eqb_spec k name) as [->|Hne].
    + by rewrite lookup_insert_eq.
    + by rewrite lookup_insert_ne.
Qed.

Lemma object_struct_app {F T} (fields : list (string * F))
    (set : F → json → T → result T) (pre rest : list (string * json)) (t : T) :
  object_struct fields set (pre ++ rest)%list t
  = object_struct fields set pre t ≫= object_struct fields set rest.
Proof.
  revert t. induction pre as [|[k v] pre IH]; intros t; [reflexivity|].
  cbn [app object_struct]. destruct (find_field fields k) as [f|]; [|apply IH].
  destruct (set f v t) as [t'|e]; [apply IH | reflexivity].
Qed.

Lemma object_Joke_keeps_flags (kvs : list (string * json)) (old j : Joke) :
  Forall (λ kv, find_field Joke_fields (fst kv) ≠ Some F_flags) kvs →
  object_struct Joke_fields set_Joke_field kvs old = Ok j →
  Joke_Flags j = Joke_Flags old.
Proof.
  intros H. revert old. induction H as [|[k v] kvs Hk _ IH]; intros old.
  - by intros [= <-].
  - cbn [object_struct fst] in *.
    destruct (find_field Joke_fields k) as [f|]; [|apply IH].
    intros (j1 & Hset & Hrest)%bind_Ok. rewrite (IH _ Hrest).
    destruct old as [category delivery flags id joke lang safe setup type].
    destruct f; try (by destruct Hk); cbn [set_Joke_field] in Hset;
      apply bind_Ok in Hset as (x & _ & [= <-]); reflexivity.
Qed.

(** X17. The flags of the joke of a single-joke payload are those of its
    [flags] object, whatever their names: when one member names the field
    [flags] (up to case) and holds an object, and the payload parses
    without error, the [Flags] map of the joke holds under every key of
    that object the boolean of the last member with that key ([false] for
    a [null]), and no other key; the keys are not compared with the
    vocabulary of the blacklist flags. *)
Theorem ParseResponse_joke_flags (spare : gotype → nat → nat)
    (pre post fkvs : list (string * json)) (k : string) (jokes : list Joke) :
  "amount" ∉ (pre ++ (k, JObject fkvs) :: post)%list.*1 →
  find_field Joke_fields k = Some F_flags →
  Forall (λ kv, find_field Joke_fields (fst kv) ≠ Some F_flags) (pre ++ post)%list →
  ParseResponse spare (JObject (pre ++ (k, JObject fkvs) :: post)%list) = (jokes, None) →
  ∃ j, jokes = [j]
       ∧ ∀ name, Joke_Flags j !! name = flag_value <$> last_member name fkvs.
Proof.
  intros Hno Hk [Hpre Hpost]%Forall_app H.
  destruct (ParseResponse_single_decoded spare _ jokes Hno H) as (j & -> & Hj).
  exists j. split; [reflexivity|]. intros name.
  unfold Unmarshal_Joke, value_Joke, value_struct in Hj.
  rewrite object_struct_app in Hj.
  apply bind_Ok in Hj as (j1 & Hj1 & Hj).
  cbn [object_struct] in Hj. rewrite Hk in Hj.
  apply bind_Ok in Hj as (j2 & Hj2 & Hj).
  apply object_Joke_keeps_flags in Hj1; [|exact Hpre].
  apply object_Joke_keeps_flags in Hj; [|exact Hpost].
  rewrite Hj. clear Hj.
  destruct j1 as [category delivery flags id joke lang safe setup type].
  cbn [set_Joke_field value_map_bool] in Hj2.
  apply bind_Ok in Hj2 as (m & Hm & [= <-]). cbn [Joke_Flags] in *.
  rewrite (object_map_bool_lookup _ _ _ Hm name), Hj1.
  destruct (last_member name fkvs); [reflexivity|]. apply lookup_empty.
Qed.

Lemma ParseResponse_joke_flags_witness :
  ∃ j, [mk_Joke "" "" {[ "nsfw" := true; "silly" := false ]} 0 "x" "" false "" ""] = [j]
       ∧ ∀ name, Joke_Flags j !! name
                 = flag_value <$> last_member name
                     [("nsfw", JBool false); ("silly", JNull); ("nsfw", JBool true)].
Proof.
  apply (ParseResponse_joke_flags spare_half
    [("error", JBool false); ("joke", JString "x")] []
    [("nsfw", JBool false); ("silly", JNull); ("nsfw", JBool true)] "Flags").
  - cbn. rewrite !not_elem_of_cons.
    repeat split; (discriminate || apply not_elem_of_nil).
  - reflexivity.
  - repeat constructor; discriminate.
  - vm_compute. reflexivity.
Defined.

(** ** The query of a validated request, escaping carried out *)

Lemma QueryEscape_app (a b : string) :
  QueryEscape (a +:+ b) = QueryEscape a +:+ QueryEscape b.
Proof. apply escape_app. Qed.

Lemma QueryEscape_digits (d : Decimal.uint) :
  QueryEscape (NilEmpty.string_of_uint d) = NilEmpty.string_of_uint d.
Proof.
  unfold QueryEscape.
  induction d; cbn [NilEmpty.string_of_uint]; [reflexivity|..];
    rewrite escape_cons, IHd; reflexivity.
Qed.

(** A number in decimal needs no escape. *)
Lemma QueryEscape_Sprintf_d (n : Z) : QueryEscape (Sprintf_d n) = Sprintf_d n.
Proof.
  assert (H : ∀ d, QueryEscape (NilZero.string_of_uint d) = NilZero.string_of_uint d).
  { intros d. destruct d; [reflexivity|..];
      match goal with |- context [NilZero.string_of_uint ?x] =>
        exact (QueryEscape_digits x) end. }
  unfold Sprintf_d. destruct (Z.to_int n) as [d|d]; cbn [NilZero.string_of_int].
  - apply H.
  - unfold QueryEscape in *. by rewrite escape_cons, H.
Qed.

Lemma QueryEscape_IDRange_String (r : IDRange) :
  QueryEscape (IDRange_String r) = IDRange_String r.
Proof.
  unfold IDRange_String. destruct (0 <? Upper r)%Z.
  - by rewrite !QueryEscape_app, !QueryEscape_Sprintf_d.
  - apply QueryEscape_Sprintf_d.
Qed.

Lemma QueryEscape_vocabulary (t : string) :
  t ∈ BlacklistFlags ∨ t ∈ Languages ∨ t ∈ JokeTypes → QueryEscape t = t.
Proof.
  unfold BlacklistFlags, Languages, JokeTypes.
  rewrite !elem_of_cons, !elem_of_nil.
  intros [H|[H|H]]; repeat (destruct H as [->|H]; [reflexivity|]); destruct H.
Qed.

(** The commas of a blacklist are escaped in the query. *)
Lemma QueryEscape_Flags_String (s : list string) :
  Forall (.∈ BlacklistFlags) s →
  QueryEscape (Flags_String s) = String.concat "%2C" s.
Proof.
  rewrite Flags_String_concat.
  induction 1 as [|f s Hf Hs IH]; [reflexivity|].
  destruct s as [|g s].
  - cbn [String.concat]. apply QueryEscape_vocabulary. by left.
  - rewrite !concat_cons_cons, !QueryEscape_app, IH.
    rewrite (QueryEscape_vocabulary f) by (by left). reflexivity.
Qed.

(** X18. The query of a request whose blacklist, language and type hold
    values of their vocabularies, escaping carried out: the numbers, the
    ID range, the language and the type stand as they are, the flags of
    the blacklist are joined by [%2C] (the comma of the list is escaped),
    and the text of [Contains] is the only value escaped byte by byte. *)
Theorem Query_Encode_of_validated_request (j : Request) :
  Forall (.∈ BlacklistFlags) (Blacklist j) →
  Lang j = "" ∨ Lang j ∈ Languages →
  Type_ j = "" ∨ Type_ j ∈ JokeTypes →
  Values_Encode (Request_Query j) = String.concat "&" (query_pairs_validated j).
Proof.
  intros Hb Hl Ht. rewrite Values_Encode_concat.
  destruct (Request_Query_pairs j) as [-> _].
  unfold query_pairs, query_pairs_validated.
  rewrite QueryEscape_Sprintf_d, QueryEscape_Flags_String by done.
  assert (QueryEscape (Lang j) = Lang j) as ->.
  { destruct Hl as [->|Hl]; [reflexivity|]. apply QueryEscape_vocabulary. auto. }
  assert (QueryEscape (Type_ j) = Type_ j) as ->.
  { destruct Ht as [->|Ht]; [reflexivity|]. apply QueryEscape_vocabulary. auto. }
  destruct (ID j) as [r|]; [|reflexivity].
  by rewrite QueryEscape_IDRange_String.
Qed.

Lemma Query_Encode_of_validated_request_witness :
  Values_Encode
    (Request_Query {| Amount := 2; Blacklist := [Nsfw; Racist]; Category := [];
                      Contains := "a b"; ID := Some {| Lower := 2; Upper := 32 |};
                      Lang := De; Safe := true; Type_ := Single |})
  = "amount=2&blacklistFlags=nsfw%2Cracist&contains=a+b&idRange=2-32&lang=de&safe-mode=&type=single".
Proof.
  apply (Query_Encode_of_validated_request
    {| Amount := 2; Blacklist := [Nsfw; Racist]; Category := [];
       Contains := "a b"; ID := Some {| Lower := 2; Upper := 32 |};
       Lang := De; Safe := true; Type_ := Single |}).
  - repeat constructor.
  - right. by apply list_elem_of_In; right; left.
  - right. by apply list_elem_of_In; left.
Defined.
